(** * CopyQ filter line edit: item filtering and search

    A shallow embedding of [src/gui/filterlineedit.cpp]: the filter built
    from the text of the filter line edit ([FilterLineEdit::filter]), the
    predicates and the document operations of [ItemFilterRegExp], the
    debounce timer of the line edit and the migration of the old filter
    history ([restoreOldFilterHistory]), with the settings of the line
    edit ([loadSettings], [hideEvent], [onMenuAction]); and of the main
    window of [src/mainwindow.cpp]: its keys, its search and browse
    modes, the timer of its search bar, the tray icon with its menu,
    the messages of the clients and [center].

    The Qt classes the file calls are modelled as far as the code uses
    them:
    - [QString] is a list of characters; a character is one of the 256
      code units of the Latin-1 range of [QChar];
    - [QRegularExpression] is a pattern string with its pattern options.
      The pattern is read by [parse_pattern] where it is written in the
      common part of the PCRE syntax (literals, [.], escapes, the
      classes [\s \d \w] and their negations, the assertions
      [^ $ \A \z \Z], groups, alternation and the quantifiers [* + ?],
      greedy and lazy) and is then matched by a backtracking matcher
      that lists the ends of all matches at a position in the order
      PCRE tries them.  Every other pattern is left to the PCRE library,
      which is a parameter of the model ([PCRE]): the library says
      whether the pattern is valid and, when it is, how it matches,
      again as the ends of the matches at a position of the subject in
      the order of their priority.  Only a pattern that is in error by
      its parentheses or by a backslash at its end is invalid without
      the library being asked.  What this leaves out are the matches
      that do not begin where they are tried ([\K]) and the patterns
      that depend on where a search began ([\G]);
    - [QTextDocument] is a plain text whose blocks are its lines, with a
      [QTextCursor] given by its anchor and position; the case option
      [QTextDocument::find] searches with is a parameter of the model;
    - [QSettings] stores are finite maps from keys to [QVariant]s.

    The model comes first, then the vocabulary of the properties, then
    the properties with their proofs, which hold for every library, and
    last the theorems applied to examples. *)

From Stdlib Require Import List Ascii String ZArith Lia Bool Arith Sorted.
From stdpp Require Import gmap strings list fin_maps sorting.
Import ListNotations.

Set Default Proof Using "Type".

(** * The model *)

(** ** Characters and strings *)

Abbreviation QString := (list ascii).

Definition qs (s : string) : QString := list_ascii_of_string s.

Definition code (c : ascii) : nat := nat_of_ascii c.

Definition between (lo hi n : nat) : bool := (lo <=? n) && (n <=? hi).

Definition NUL : ascii := ascii_of_nat 0.
Definition LF : ascii := ascii_of_nat 10.
Definition SPACE : ascii := ascii_of_nat 32.
Definition NBSP : ascii := ascii_of_nat 160.
Definition BACKSLASH : ascii := ascii_of_nat 92.
Definition SLASH : ascii := ascii_of_nat 47.

(** The characters matched by [\s] without Unicode properties. *)
Definition is_space (c : ascii) : bool :=
  between 9 13 (code c) || (code c =? 32).

Definition is_digit (c : ascii) : bool := between 48 57 (code c).

Definition is_octal_digit (c : ascii) : bool := between 48 55 (code c).

Definition is_letter (c : ascii) : bool :=
  between 65 90 (code c) || between 97 122 (code c).

Definition is_alnum (c : ascii) : bool := is_letter c || is_digit c.

(** The characters matched by [\w]: letters, digits and the underscore. *)
Definition is_word (c : ascii) : bool := is_alnum c || (code c =? 95).

(** Case folding on the Latin-1 range: the ASCII capitals and the
    accented capitals 0xC0..0xDE except the multiplication sign. *)
Definition to_lower (c : ascii) : ascii :=
  let n := code c in
  if between 65 90 n || (between 192 222 n && negb (n =? 215))
  then ascii_of_nat (n + 32) else c.

Definition char_eqb (caseless : bool) (c1 c2 : ascii) : bool :=
  if caseless then Ascii.eqb (to_lower c1) (to_lower c2) else Ascii.eqb c1 c2.

(** ** Regular expressions *)

Inductive charset := AnyButNewline | Space | Digit | Word.

Definition charset_mem (cs : charset) (c : ascii) : bool :=
  match cs with
  | AnyButNewline => negb (Ascii.eqb c LF)
  | Space => is_space c
  | Digit => is_digit c
  | Word => is_word c
  end.

(** What the PCRE library makes of a pattern that is outside the syntax
    read below: for the case option, a subject and a position in it, the
    positions where a match that starts at the position can end, in the
    order the library tries them. *)
Definition matcher : Type := bool -> QString -> nat -> list nat.

Inductive regex :=
| Eps
| Chr (c : ascii)
| InSet (neg : bool) (cs : charset)
| AssertStart
| AssertEnd
| AssertEndOrNewline
| Cat (r1 r2 : regex)
| Alt (r1 r2 : regex)
| Star (greedy : bool) (r : regex)
| Extern (x : matcher).

(** [Matches caseless w r i j]: the pattern [r] matches the characters of
    the subject [w] from position [i] up to position [j]. *)
Inductive Matches (caseless : bool) (w : QString) : regex -> nat -> nat -> Prop :=
| MEps i : Matches caseless w Eps i i
| MChr c c' i :
    w !! i = Some c' -> char_eqb caseless c c' = true ->
    Matches caseless w (Chr c) i (S i)
| MInSet neg cs c' i :
    w !! i = Some c' -> xorb neg (charset_mem cs c') = true ->
    Matches caseless w (InSet neg cs) i (S i)
| MStart : Matches caseless w AssertStart 0 0
| MEnd : Matches caseless w AssertEnd (length w) (length w)
| MEndOrNewlineEnd : Matches caseless w AssertEndOrNewline (length w) (length w)
| MEndOrNewlineLF i :
    S i = length w -> w !! i = Some LF ->
    Matches caseless w AssertEndOrNewline i i
| MCat r1 r2 i j k :
    Matches caseless w r1 i j -> Matches caseless w r2 j k ->
    Matches caseless w (Cat r1 r2) i k
| MAltL r1 r2 i j : Matches caseless w r1 i j -> Matches caseless w (Alt r1 r2) i j
| MAltR r1 r2 i j : Matches caseless w r2 i j -> Matches caseless w (Alt r1 r2) i j
| MStarStop g r i : Matches caseless w (Star g r) i i
| MStarIter g r i j k :
    Matches caseless w r i j -> Matches caseless w (Star g r) j k ->
    Matches caseless w (Star g r) i k
| MExtern x i j :
    In j (x caseless w i) -> i <= j -> j <= length w ->
    Matches caseless w (Extern x) i j.

(** The backtracking matcher.  [ends caseless w r i] lists the positions
    where a match of [r] that starts at [i] can end, in the order the
    alternatives are tried: the first one is the match that is
    reported. *)
Fixpoint star_ends (greedy : bool) (step : nat -> list nat) (fuel i : nat)
  : list nat :=
  match fuel with
  | 0 => [i]
  | S fuel' =>
      let more :=
        flat_map (fun j => if i <? j then star_ends greedy step fuel' j else [i])
                 (step i) in
      if greedy then more ++ [i] else i :: more
  end.

Fixpoint ends (caseless : bool) (w : QString) (r : regex) (i : nat) : list nat :=
  match r with
  | Eps => [i]
  | Chr c =>
      match w !! i with
      | Some c' => if char_eqb caseless c c' then [S i] else []
      | None => []
      end
  | InSet neg cs =>
      match w !! i with
      | Some c' => if xorb neg (charset_mem cs c') then [S i] else []
      | None => []
      end
  | AssertStart => if i =? 0 then [i] else []
  | AssertEnd => if i =? length w then [i] else []
  | AssertEndOrNewline =>
      if i =? length w then [i]
      else if (S i =? length w) && bool_decide (w !! i = Some LF) then [i]
      else []
  | Cat r1 r2 => flat_map (ends caseless w r2) (ends caseless w r1 i)
  | Alt r1 r2 => ends caseless w r1 i ++ ends caseless w r2 i
  | Star g r => star_ends g (ends caseless w r) (S (length w - i)) i
  | Extern x =>
      List.filter (fun j => (i <=? j) && (j <=? length w)) (x caseless w i)
  end.

(** The leftmost match that starts at [s] or later, trying [n] start
    positions. *)
Fixpoint search_from (caseless : bool) (w : QString) (r : regex) (n s : nat)
  : option (nat * nat) :=
  match n with
  | 0 => None
  | S n' =>
      match ends caseless w r s with
      | e :: _ => Some (s, e)
      | [] => search_from caseless w r n' (S s)
      end
  end.

(** ** Compiling a pattern string

    The pattern is read character by character.  The reader keeps a
    stack of open groups; each group holds the alternatives completed so
    far and the items of the alternative being read, both latest
    first. *)

Inductive quantifier := QStar | QPlus | QOpt.

Definition quantify (greedy : bool) (q : quantifier) (r : regex) : regex :=
  match q with
  | QStar => Star greedy r
  | QPlus => Cat r (Star greedy r)
  | QOpt => if greedy then Alt r Eps else Alt Eps r
  end.

(** An item of a sequence: an atom, which may take a quantifier; a
    greedily quantified atom, which a following [?] makes lazy; an
    assertion or a lazily quantified atom, which takes nothing more. *)
Inductive item :=
| IAtom (r : regex)
| IQuant (q : quantifier) (r : regex)
| IFixed (r : regex).

Definition item_regex (it : item) : regex :=
  match it with
  | IAtom r => r
  | IQuant q r => quantify true q r
  | IFixed r => r
  end.

Record frame := { f_alts : list regex; f_seq : list item }.

Definition seq_regex (seq : list item) : regex :=
  foldr Cat Eps (map item_regex (rev seq)).

Definition frame_regex (fr : frame) : regex :=
  fold_left (fun acc a => Alt a acc) (f_alts fr) (seq_regex (f_seq fr)).

Inductive lexmode :=
| LNormal
| LEscape                (* after a backslash *)
| LOctal (more : nat)    (* after [\0], with the octal digits still accepted *)
| LOpen                  (* after an opening parenthesis *)
| LOpenQ.                (* after an opening parenthesis and a question mark *)

Record pstate := { p_stack : list frame; p_cur : frame; p_mode : lexmode }.

Definition pstate0 : pstate :=
  {| p_stack := []; p_cur := {| f_alts := []; f_seq := [] |}; p_mode := LNormal |}.

Inductive token :=
| TAtom (r : regex)
| TAssert (r : regex)
| TQuant (q : quantifier)
| TOpen
| TClose
| TBar
| TBackslash
| TOctal
| TUnsupported.

Definition classify_normal (c : ascii) : token :=
  if Ascii.eqb c "\" then TBackslash
  else if Ascii.eqb c "." then TAtom (InSet false AnyButNewline)
  else if Ascii.eqb c "*" then TQuant QStar
  else if Ascii.eqb c "+" then TQuant QPlus
  else if Ascii.eqb c "?" then TQuant QOpt
  else if Ascii.eqb c "(" then TOpen
  else if Ascii.eqb c ")" then TClose
  else if Ascii.eqb c "|" then TBar
  else if Ascii.eqb c "^" then TAssert AssertStart
  else if Ascii.eqb c "$" then TAssert AssertEndOrNewline
  else if Ascii.eqb c "[" then TUnsupported
  else if Ascii.eqb c "{" then TUnsupported
  else TAtom (Chr c).

Definition classify_escape (c : ascii) : token :=
  if Ascii.eqb c "0" then TOctal
  else if Ascii.eqb c "A" then TAssert AssertStart
  else if Ascii.eqb c "Z" then TAssert AssertEndOrNewline
  else if Ascii.eqb c "z" then TAssert AssertEnd
  else if Ascii.eqb c "s" then TAtom (InSet false Space)
  else if Ascii.eqb c "S" then TAtom (InSet true Space)
  else if Ascii.eqb c "d" then TAtom (InSet false Digit)
  else if Ascii.eqb c "D" then TAtom (InSet true Digit)
  else if Ascii.eqb c "w" then TAtom (InSet false Word)
  else if Ascii.eqb c "W" then TAtom (InSet true Word)
  else if Ascii.eqb c "n" then TAtom (Chr LF)
  else if Ascii.eqb c "t" then TAtom (Chr (ascii_of_nat 9))
  else if Ascii.eqb c "r" then TAtom (Chr (ascii_of_nat 13))
  else if Ascii.eqb c "f" then TAtom (Chr (ascii_of_nat 12))
  else if Ascii.eqb c "e" then TAtom (Chr (ascii_of_nat 27))
  else if Ascii.eqb c "a" then TAtom (Chr (ascii_of_nat 7))
  else if is_alnum c then TUnsupported
  else TAtom (Chr c).

Definition set_mode (m : lexmode) (st : pstate) : pstate :=
  {| p_stack := p_stack st; p_cur := p_cur st; p_mode := m |}.

Definition set_seq (seq : list item) (st : pstate) : pstate :=
  {| p_stack := p_stack st;
     p_cur := {| f_alts := f_alts (p_cur st); f_seq := seq |};
     p_mode := LNormal |}.

Definition push_item (it : item) (st : pstate) : pstate :=
  set_seq (it :: f_seq (p_cur st)) st.

Definition apply_token (t : token) (st : pstate) : option pstate :=
  match t with
  | TAtom r => Some (push_item (IAtom r) st)
  | TAssert r => Some (push_item (IFixed r) st)
  | TQuant q =>
      match f_seq (p_cur st) with
      | IAtom r :: seq => Some (set_seq (IQuant q r :: seq) st)
      | IQuant q0 r :: seq =>
          match q with
          | QOpt => Some (set_seq (IFixed (quantify false q0 r) :: seq) st)
          | _ => None
          end
      | _ => None
      end
  | TOpen =>
      Some {| p_stack := p_cur st :: p_stack st;
              p_cur := {| f_alts := []; f_seq := [] |};
              p_mode := LOpen |}
  | TClose =>
      match p_stack st with
      | [] => None
      | fr :: stack =>
          Some {| p_stack := stack;
                  p_cur := {| f_alts := f_alts fr;
                              f_seq := IAtom (frame_regex (p_cur st)) :: f_seq fr |};
                  p_mode := LNormal |}
      end
  | TBar =>
      Some {| p_stack := p_stack st;
              p_cur := {| f_alts := seq_regex (f_seq (p_cur st)) :: f_alts (p_cur st);
                          f_seq := [] |};
              p_mode := LNormal |}
  | TBackslash => Some (set_mode LEscape st)
  | TOctal => Some (set_mode (LOctal 2) (push_item (IAtom (Chr NUL)) st))
  | TUnsupported => None
  end.

Definition octal_digit (st : pstate) (more : nat) (c : ascii) : option pstate :=
  match f_seq (p_cur st) with
  | IAtom (Chr v) :: seq =>
      Some (set_mode (LOctal more)
              (set_seq (IAtom (Chr (ascii_of_nat (code v * 8 + (code c - 48)))) :: seq) st))
  | _ => None
  end.

Definition pstep (st : pstate) (c : ascii) : option pstate :=
  match p_mode st with
  | LNormal => apply_token (classify_normal c) st
  | LEscape => apply_token (classify_escape c) st
  | LOctal more =>
      match more with
      | S more' =>
          if is_octal_digit c then octal_digit st more' c
          else apply_token (classify_normal c) st
      | 0 => apply_token (classify_normal c) st
      end
  | LOpen =>
      if Ascii.eqb c "?" then Some (set_mode LOpenQ st)
      else apply_token (classify_normal c) st
  | LOpenQ =>
      if Ascii.eqb c ":" then Some (set_mode LNormal st) else None
  end.

Fixpoint run_pattern (st : pstate) (p : QString) : option pstate :=
  match p with
  | [] => Some st
  | c :: p' =>
      match pstep st c with
      | Some st' => run_pattern st' p'
      | None => None
      end
  end.

Definition finish (st : pstate) : option regex :=
  match p_stack st, p_mode st with
  | [], LNormal | [], LOctal _ => Some (frame_regex (p_cur st))
  | _, _ => None
  end.

Definition parse_pattern (p : QString) : option regex :=
  match run_pattern pstate0 p with
  | Some st => finish st
  | None => None
  end.

(** ** QRegularExpression and the QString functions that take one *)

Inductive PatternOption := NoPatternOption | CaseInsensitiveOption.

Record QRegularExpression :=
  { pattern : QString; patternOptions : PatternOption }.

(** [isEmpty] of a [QString] and of a [QStringList]. *)
Definition isEmpty {A : Type} (s : list A) : bool :=
  match s with [] => true | _ => false end.

(** The reader gives up on a pattern for one of two reasons.  The
    pattern is in error by what the reader itself has read: it closes a
    group that was not opened, leaves a group open, or ends in a
    backslash; the library refuses such a pattern.  Or the pattern uses
    syntax the reader does not read (character classes, counted
    repetition, look-around, possessive quantifiers, further escapes, or
    a quantifier where the reader takes none): then the library
    decides. *)
Definition closes_nothing (st : pstate) (c : ascii) : bool :=
  match p_mode st with
  | LNormal | LOctal _ => Ascii.eqb c ")" && isEmpty (p_stack st)
  | _ => false
  end.

Fixpoint malformed_from (st : pstate) (p : QString) : bool :=
  match p with
  | [] => match finish st with Some _ => false | None => true end
  | c :: p' =>
      match pstep st c with
      | Some st' => malformed_from st' p'
      | None => closes_nothing st c
      end
  end.

Definition malformed (p : QString) : bool := malformed_from pstate0 p.

(** The PCRE library, for the patterns that are left to it: whether the
    pattern compiles and, when it does, how it matches.  The library is
    a parameter of the model. *)
Class PCRE := pcre_compile : QString -> option matcher.

Section Expressions.
Context {pcre : PCRE}.

Definition compiled (re : QRegularExpression) : option regex :=
  match parse_pattern (pattern re) with
  | Some r => Some r
  | None =>
      if malformed (pattern re) then None
      else option_map Extern (pcre_compile (pattern re))
  end.

Definition isValid (re : QRegularExpression) : bool :=
  match compiled re with Some _ => true | None => false end.

Definition caseless (re : QRegularExpression) : bool :=
  match patternOptions re with
  | CaseInsensitiveOption => true
  | NoPatternOption => false
  end.

(** [QRegularExpression::match(subject, offset)]: the captured start and
    end of the first match at [offset] or later. *)
Definition re_match (re : QRegularExpression) (subject : QString) (offset : nat)
  : option (nat * nat) :=
  match compiled re with
  | Some r =>
      search_from (caseless re) subject r (S (length subject) - offset) offset
  | None => None
  end.

(** [QString::indexOf(re, from, &match)]. *)
Definition indexOf (s : QString) (re : QRegularExpression) (from : nat)
  : option (nat * nat) :=
  re_match re s from.

(** [QString::contains(re)]. *)
Definition contains (s : QString) (re : QRegularExpression) : bool :=
  match re_match re s 0 with Some _ => true | None => false end.

(** [QString::count(ch)]. *)
Definition count (s : QString) (ch : ascii) : nat :=
  length (filter (fun c => c = ch) s).

(** [QRegularExpression::escape]: a NUL becomes backslash-zero, every
    other character that is not a letter, a digit or an underscore gets a
    backslash before it. *)
Definition escape_char (c : ascii) : QString :=
  if Ascii.eqb c NUL then [BACKSLASH; "0"%char]
  else if negb (is_word c) then [BACKSLASH; c]
  else [c].

Definition escape (str : QString) : QString := flat_map escape_char str.

(** [QRegularExpression::globalMatch]: the iterator's next match starts
    where the previous one ended; after an empty match it first asks for
    a non-empty match anchored at the same offset and, failing that,
    searches from the next character. *)
Definition match_nonempty_at (re : QRegularExpression) (subject : QString)
    (offset : nat) : option (nat * nat) :=
  match compiled re with
  | Some r =>
      match List.find (fun e => negb (e =? offset))
                      (ends (caseless re) subject r offset) with
      | Some e => Some (offset, e)
      | None => None
      end
  | None => None
  end.

Definition nextMatch (re : QRegularExpression) (subject : QString)
    (previous : nat * nat) : option (nat * nat) :=
  let offset := snd previous in
  if fst previous =? snd previous then
    match match_nonempty_at re subject offset with
    | Some m => Some m
    | None => re_match re subject (S offset)
    end
  else re_match re subject offset.

Fixpoint iterate_matches (re : QRegularExpression) (subject : QString)
    (fuel : nat) (next : option (nat * nat)) : list (nat * nat) :=
  match fuel, next with
  | S fuel', Some m => m :: iterate_matches re subject fuel' (nextMatch re subject m)
  | _, _ => []
  end.

Definition globalMatch (re : QRegularExpression) (subject : QString)
  : list (nat * nat) :=
  iterate_matches re subject (2 * length subject + 3) (re_match re subject 0).

(** [QString::lastIndexOf(re, from, &match)] for [from >= 0]: the last
    match of the iteration that starts at [from] or before. *)
Fixpoint last_starting_before (endpos : nat) (ms : list (nat * nat))
    (found : option (nat * nat)) : option (nat * nat) :=
  match ms with
  | [] => found
  | m :: ms' =>
      if fst m <? endpos then last_starting_before endpos ms' (Some m)
      else found
  end.

Definition lastIndexOf (s : QString) (re : QRegularExpression) (from : nat)
  : option (nat * nat) :=
  if isValid re then last_starting_before (from + 1) (globalMatch re s) None
  else None.

(** [QString::mid] and [QString::split(re, behavior)]. *)
Definition mid (s : QString) (pos n : nat) : QString := take n (drop pos s).

Inductive SplitBehavior := KeepEmptyParts | SkipEmptyParts.

Definition split_step (source : QString) (keep : bool)
    (acc : list QString * nat) (m : nat * nat) : list QString * nat :=
  let '(list, start) := acc in
  let end_ := fst m in
  (if negb (start =? end_) || keep
   then list ++ [mid source start (end_ - start)] else list,
   snd m).

Definition split (source : QString) (re : QRegularExpression)
    (behavior : SplitBehavior) : list QString :=
  if isValid re then
    let keep := match behavior with KeepEmptyParts => true | SkipEmptyParts => false end in
    let '(list, start) :=
      fold_left (split_step source keep) (globalMatch re source) ([], 0) in
    if negb (start =? length source) || keep
    then list ++ [drop start source] else list
  else [].

End Expressions.

(** ** The item data a filter is matched against *)

Inductive QVariant :=
| QVInvalid
| QVBool (b : bool)
| QVString (s : QString)
| QVStringList (l : list QString)
| QVByteArray (bytes : list ascii).

Abbreviation QVariantMap := (gmap QString QVariant).

(** A model index gives the map stored under the role
    [contentType::data]: the item's data keyed by format. *)
Record QModelIndex := { index_data : QVariantMap }.

(** Modelled from the spec: [anchoredRegExp] of [common/regexp.h] is not
    among the sources.  The filter turns the pattern text into an
    expression anchored at both ends of the subject, the way
    [QRegularExpression::anchoredPattern] does, with no pattern
    option. *)
Definition anchoredRegExp (pat : QString) : QRegularExpression :=
  {| pattern := qs "\A(?:" ++ pat ++ qs ")\z"; patternOptions := NoPatternOption |}.

(** ** ItemFilterRegExp *)

Section Filters.
Context {pcre : PCRE}.

Record ItemFilterRegExp :=
  { m_re : QRegularExpression; m_searchString : QString }.

Definition searchString (f : ItemFilterRegExp) : QString := m_searchString f.

Definition matchesAll (f : ItemFilterRegExp) : bool :=
  isEmpty (pattern (m_re f)).

Definition matchesNone (f : ItemFilterRegExp) : bool :=
  negb (isValid (m_re f)).

Definition matches (f : ItemFilterRegExp) (text : QString) : bool :=
  contains text (m_re f).

Section MatchesIndex.
(** The helper that anchors the pattern is a parameter here. *)
Variable anchored : QString -> QRegularExpression.

Definition matches_index_with (f : ItemFilterRegExp) (index : QModelIndex) : bool :=
  (* Match formats if the filter expression contains single '/'. *)
  if negb (count (pattern (m_re f)) SLASH =? 1) then false
  else
    let re2 := anchored (pattern (m_re f)) in
    let data := index_data index in
    existsb (fun key => contains key re2) (map fst (map_to_list data)).

End MatchesIndex.

Definition matches_index : ItemFilterRegExp -> QModelIndex -> bool :=
  matches_index_with anchoredRegExp.

(** ** FilterLineEdit::filter *)

Record FilterLineEdit :=
  { text : QString;
    m_actionRe : bool;                (* "Regular Expression" is checked *)
    m_actionCaseInsensitive : bool    (* "Case Insensitive" is checked *) }.

Definition reWhiteSpace : QRegularExpression :=
  {| pattern := qs "\s+"; patternOptions := NoPatternOption |}.

Definition append_token (pat : QString) (str : QString) : QString :=
  let pat := if negb (isEmpty pat) then pat ++ qs ".*" else pat in
  pat ++ escape str.

Definition filter_pattern (w : FilterLineEdit) : QString :=
  if m_actionRe w then text w
  else fold_left append_token (split (text w) reWhiteSpace SkipEmptyParts) [].

Definition filter (w : FilterLineEdit) : ItemFilterRegExp :=
  let sensitivity :=
    if m_actionCaseInsensitive w then CaseInsensitiveOption else NoPatternOption in
  {| m_re := {| pattern := filter_pattern w; patternOptions := sensitivity |};
     m_searchString := text w |}.

(** The filter for a raw text and the two options. *)
Definition compile (raw : QString) (useRegex caseInsensitive : bool)
  : ItemFilterRegExp :=
  filter {| text := raw; m_actionRe := useRegex;
            m_actionCaseInsensitive := caseInsensitive |}.

End Filters.

(** ** QTextDocument, QTextCursor and QTextEdit *)

(** A cursor that is not null has an anchor and a position; the null
    cursor is [None]. *)
Record TextCursor := { cur_anchor : nat; cur_position : nat }.

Abbreviation QTextCursor := (option TextCursor).

Definition isNull (c : QTextCursor) : bool :=
  match c with None => true | Some _ => false end.

(** [QTextCursor::position]: -1 for the null cursor. *)
Definition position (c : QTextCursor) : Z :=
  match c with
  | Some x => Z.of_nat (cur_position x)
  | None => (-1)%Z
  end.

Definition hasSelection (x : TextCursor) : bool :=
  negb (cur_anchor x =? cur_position x).

Definition selectionStart (x : TextCursor) : nat :=
  Nat.min (cur_anchor x) (cur_position x).

Definition selectionEnd (x : TextCursor) : nat :=
  Nat.max (cur_anchor x) (cur_position x).

(** The document is its plain text; its blocks are the lines of the
    text, each with the position of its first character. *)
Fixpoint block_table (s : QString) (blockPos : nat) (cur : QString)
  : list (nat * QString) :=
  match s with
  | [] => [(blockPos, cur)]
  | c :: s' =>
      if Ascii.eqb c LF
      then (blockPos, cur) :: block_table s' (blockPos + length cur + 1) []
      else block_table s' blockPos (cur ++ [c])
  end.

Definition blocks (doc : QString) : list (nat * QString) := block_table doc 0 [].

Inductive MoveOperation := Start | End | NextCharacter.

(** [QTextCursor::movePosition(op)], which moves the anchor too. *)
Definition movePosition (doc : QString) (op : MoveOperation) (c : QTextCursor)
  : QTextCursor :=
  match c with
  | None => None
  | Some x =>
      let p := match op with
               | Start => 0
               | End => length doc
               | NextCharacter =>
                   if cur_position x <? length doc
                   then S (cur_position x) else cur_position x
               end in
      Some {| cur_anchor := p; cur_position := p |}
  end.

Section DocumentSearch.
Context {pcre : PCRE}.
(** [QTextDocument::find] sets the case option of the expression it
    searches with: the versions of Qt differ in how.  The option that
    is set, given the option of the expression, is a parameter. *)
Variable searchOption : PatternOption -> PatternOption.

Definition search_expression (expr : QRegularExpression) : QRegularExpression :=
  {| pattern := pattern expr;
     patternOptions := searchOption (patternOptions expr) |}.

(** The text a block is searched in: no-break spaces are replaced by
    spaces. *)
Definition block_text (b : QString) : QString :=
  map (fun c => if Ascii.eqb c NBSP then SPACE else c) b.

Definition findInBlock (b : QString) (blockPos : nat)
    (expr : QRegularExpression) (offset : nat) (backward : bool) : QTextCursor :=
  let text := block_text b in
  if offset <=? length text then
    match (if backward then lastIndexOf text expr offset
           else indexOf text expr offset) with
    | Some (idx, e) =>
        Some {| cur_anchor := blockPos + idx;
                cur_position := blockPos + idx + (e - idx) |}
    | None => None
    end
  else None.

(** Forwards: the block that holds [pos] is searched from [pos], the
    blocks after it from their start. *)
Fixpoint find_forward (expr : QRegularExpression) (table : list (nat * QString))
    (pos : nat) : QTextCursor :=
  match table with
  | [] => None
  | (blockPos, b) :: rest =>
      if blockPos + length b <? pos then find_forward expr rest pos
      else
        match findInBlock b blockPos expr (pos - blockPos) false with
        | Some c => Some c
        | None => find_forward expr rest pos
        end
  end.

(** Backwards, over the blocks from the last to the first: the block
    that holds [pos] is searched from [pos], the blocks before it from
    their end. *)
Fixpoint find_backward (expr : QRegularExpression) (rtable : list (nat * QString))
    (pos : nat) : QTextCursor :=
  match rtable with
  | [] => None
  | (blockPos, b) :: rest =>
      if pos <? blockPos then find_backward expr rest pos
      else
        match findInBlock b blockPos expr (Nat.min (pos - blockPos) (length b)) true with
        | Some c => Some c
        | None => find_backward expr rest pos
        end
  end.

(** [QTextDocument::find(expr, from, options)]. *)
Definition find_from (doc : QString) (expr : QRegularExpression) (from : nat)
    (backward : bool) : QTextCursor :=
  if isValid expr then
    let expression := search_expression expr in
    if backward then
      match from with
      | 0 => None
      | S pos => find_backward expression (rev (blocks doc)) pos
      end
    else find_forward expression (blocks doc) from
  else None.

(** [QTextDocument::find(expr, cursor, options)]. *)
Definition find (doc : QString) (expr : QRegularExpression) (cursor : QTextCursor)
    (backward : bool) : QTextCursor :=
  let pos := match cursor with
             | None => 0
             | Some x => if backward then selectionStart x else selectionEnd x
             end in
  find_from doc expr pos backward.

Record QTextEdit :=
  { document : QString;
    textCursor : QTextCursor;
    extraSelections : list TextCursor }.

Definition setTextCursor (c : QTextCursor) (edit : QTextEdit) : QTextEdit :=
  {| document := document edit; textCursor := c;
     extraSelections := extraSelections edit |}.

Definition setExtraSelections (l : list TextCursor) (edit : QTextEdit) : QTextEdit :=
  {| document := document edit; textCursor := textCursor edit;
     extraSelections := l |}.

(** The loop of [ItemFilterRegExp::highlight]; [None] when the fuel
    runs out before the loop ends. *)
Fixpoint highlight_loop (fuel : nat) (doc : QString) (re : QRegularExpression)
    (cur : QTextCursor) (a : Z) (selections : list TextCursor)
  : option (list TextCursor) :=
  match fuel with
  | 0 => None
  | S fuel' =>
      match cur with
      | None => Some selections
      | Some x =>
          let selections :=
            if hasSelection x then selections ++ [x] else selections in
          let cur :=
            if hasSelection x then cur else movePosition doc NextCharacter cur in
          let cur := find doc re cur false in
          let b := position cur in
          if (a =? b)%Z then
            let cur := movePosition doc NextCharacter cur in
            let cur := find doc re cur false in
            let b := position cur in
            if (a =? b)%Z then Some selections
            else highlight_loop fuel' doc re cur b selections
          else highlight_loop fuel' doc re cur b selections
      end
  end.

Definition highlight_selections (fuel : nat) (f : ItemFilterRegExp) (doc : QString)
  : option (list TextCursor) :=
  if isValid (m_re f) && negb (isEmpty (pattern (m_re f))) then
    let cur := find_from doc (m_re f) 0 false in
    let a := position cur in
    highlight_loop fuel doc (m_re f) cur a []
  else Some [].

(** [ItemFilterRegExp::highlight]: the loop is given as many rounds as
    the document has cursor positions, and one more. *)
Definition highlight (f : ItemFilterRegExp) (edit : QTextEdit) : option QTextEdit :=
  match highlight_selections (length (document edit) + 2) f (document edit) with
  | Some selections => Some (setExtraSelections selections edit)
  | None => None
  end.

(** [ItemFilterRegExp::search]. *)
Definition search (f : ItemFilterRegExp) (edit : QTextEdit) (backwards : bool)
  : QTextEdit :=
  if matchesAll f then edit
  else
    let tc := textCursor edit in
    if isNull tc then edit
    else
      let doc := document edit in
      let tc2 := find doc (m_re f) tc backwards in
      let tc2 :=
        if isNull tc2 then
          let tc2 := movePosition doc (if backwards then End else Start) tc in
          find doc (m_re f) tc2 backwards
        else tc2 in
      if negb (isNull tc2) then setTextCursor tc2 edit else edit.

End DocumentSearch.

(** ** The search timer of the line edit

    Time is counted in the units of the timer interval.  The state is
    the focus of the widget and, while the single-shot timer
    [m_timerSearch] is active, the time at which it expires.  What is
    recorded of a run are the times at which [filterChanged] is
    emitted. *)

Record Widget := { hasFocus : bool; m_timerSearch : option nat }.

Definition interval : nat := 200.

Inductive Event := TextChanged | FocusIn | FocusOut | MenuTriggered.

(** [FilterLineEdit::onTextChanged]. *)
Definition onTextChanged (now : nat) (w : Widget) : Widget * list nat :=
  if hasFocus w
  then ({| hasFocus := hasFocus w; m_timerSearch := Some (now + interval) |}, [])
  else (w, [now]).

(** [FilterLineEdit::focusOutEvent]: the widget has lost the focus when
    the event is delivered. *)
Definition focusOutEvent (now : nat) (w : Widget) : Widget * list nat :=
  let w := {| hasFocus := false; m_timerSearch := m_timerSearch w |} in
  match m_timerSearch w with
  | Some _ => onTextChanged now {| hasFocus := hasFocus w; m_timerSearch := None |}
  | None => (w, [])
  end.

Definition focusInEvent (now : nat) (w : Widget) : Widget * list nat :=
  ({| hasFocus := true; m_timerSearch := m_timerSearch w |}, []).

(** An action of the menu is triggered: [FilterLineEdit::onMenuAction]
    emits [filterChanged] at once.  What it writes to the settings is
    modelled with the settings of the line edit. *)
Definition menuTriggered (now : nat) (w : Widget) : Widget * list nat :=
  (w, [now]).

Definition deliver (now : nat) (ev : Event) (w : Widget) : Widget * list nat :=
  match ev with
  | TextChanged => onTextChanged now w
  | FocusIn => focusInEvent now w
  | FocusOut => focusOutEvent now w
  | MenuTriggered => menuTriggered now w
  end.

(** The timer expires: it is single-shot and its timeout is connected
    to [filterChanged]. *)
Definition expire (now : nat) (w : Widget) : Widget * list nat :=
  match m_timerSearch w with
  | Some d =>
      if d <=? now
      then ({| hasFocus := hasFocus w; m_timerSearch := None |}, [d])
      else (w, [])
  | None => (w, [])
  end.

(** The event loop: a timer that is due expires before an event of the
    same or a later time is delivered. *)
Fixpoint run (w : Widget) (events : list (nat * Event)) : Widget * list nat :=
  match events with
  | [] => (w, [])
  | (t, ev) :: rest =>
      let '(w1, e1) := expire t w in
      let '(w2, e2) := deliver t ev w1 in
      let '(w3, e3) := run w2 rest in
      (w3, e1 ++ e2 ++ e3)
  end.

Definition run_until (horizon : nat) (w : Widget) (events : list (nat * Event))
  : Widget * list nat :=
  let '(w1, e1) := run w events in
  let '(w2, e2) := expire horizon w1 in
  (w2, e1 ++ e2).

(** ** The filter history and the history of version 2.5.0 *)

Abbreviation QSettings := (gmap QString QVariant).

Definition QVariant_isValid (v : QVariant) : bool :=
  match v with QVInvalid => false | _ => true end.

(** [QVariant::toStringList]: a string list as it is, a string as the
    list of that string, nothing for the other values. *)
Definition toStringList (v : QVariant) : list QString :=
  match v with
  | QVStringList l => l
  | QVString s => [s]
  | _ => []
  end.

(** [QSettings::value]: an invalid variant when the key is not set. *)
Definition value (settings : QSettings) (key : QString) : QVariant :=
  default QVInvalid (settings !! key).

(** The two stores: the settings of the application behind [AppConfig]
    and the settings file of the filter history. *)
Record Stores := { appConfig : QSettings; m_settings : QSettings }.

Definition optionFilterHistory : QString := qs "filter_history".

(** Modelled from the spec: [AppConfig] of [common/appconfig.h] is not
    among the sources.  [option] reads the value stored under a name in
    the application-wide settings, [removeOption] deletes it. *)
Definition AppConfig_option (name : QString) (st : Stores) : QVariant :=
  value (appConfig st) name.

Definition AppConfig_removeOption (name : QString) (st : Stores) : Stores :=
  {| appConfig := delete name (appConfig st); m_settings := m_settings st |}.

(** [FilterHistory::history] and [FilterHistory::setHistory]. *)
Definition history (st : Stores) : list QString :=
  toStringList (value (m_settings st) optionFilterHistory).

Definition setHistory (l : list QString) (st : Stores) : Stores :=
  {| appConfig := appConfig st;
     m_settings := <[optionFilterHistory := QVStringList l]> (m_settings st) |}.

(** [QStringList::removeDuplicates]: the strings are kept in their
    order; a string that was seen before is dropped. *)
Fixpoint removeDuplicates_from (seen : gset QString) (l : list QString)
  : list QString :=
  match l with
  | [] => []
  | s :: l' =>
      if decide (s ∈ seen) then removeDuplicates_from seen l'
      else s :: removeDuplicates_from ({[s]} ∪ seen) l'
  end.

Definition removeDuplicates (l : list QString) : list QString :=
  removeDuplicates_from ∅ l.

(** Compatibility with version 2.5.0 and below. *)
Definition restoreOldFilterHistory (st : Stores) : Stores :=
  let oldHistoryValue := AppConfig_option optionFilterHistory st in
  if QVariant_isValid oldHistoryValue then
    let oldHistory := toStringList oldHistoryValue in
    let st :=
      if negb (isEmpty oldHistory) then
        let newHistory := removeDuplicates (history st ++ oldHistory) in
        setHistory newHistory st
      else st in
    AppConfig_removeOption optionFilterHistory st
  else st.

(** ** The settings of the line edit and the history of its completer *)

(** [QVariant::toBool]: a bool as it is; a string or a byte array is
    true unless it is empty, or 0 or false in lower case. *)
Definition toBool (v : QVariant) : bool :=
  match v with
  | QVBool b => b
  | QVString s | QVByteArray s =>
      let lower := map to_lower s in
      negb (isEmpty lower || bool_decide (lower = qs "0")
            || bool_decide (lower = qs "false"))
  | _ => false
  end.

Definition filter_regular_expression : QString := qs "filter_regular_expression".
Definition filter_case_insensitive : QString := qs "filter_case_insensitive".
Definition save_filter_history : QString := qs "save_filter_history".

(** Modelled from the spec: the three flags are read from the settings
    of the application, and toggling an option writes the new value
    back to the same store.  [AppConfig] of [common/appconfig.h] is not
    among the sources: the typed [option<Config::name>] reads the value
    stored under the name as a bool, and gives the default of the option
    when no value is stored; [setOption] stores a value under a name.
    The defaults of the options are parameters. *)
Record ConfigDefaults :=
  { default_filter_regular_expression : bool;
    default_filter_case_insensitive : bool;
    default_save_filter_history : bool }.

Definition AppConfig_option_bool (defaultValue : bool) (name : QString)
    (st : Stores) : bool :=
  let v := AppConfig_option name st in
  if QVariant_isValid v then toBool v else defaultValue.

Definition AppConfig_setOption (name : QString) (v : QVariant) (st : Stores)
  : Stores :=
  {| appConfig := <[name := v]> (appConfig st); m_settings := m_settings st |}.

(** [FilterCompleter] of [gui/filtercompleter.h] is not among the
    sources.  What the line edit uses of it is an interface: the
    completer that [installCompleter] sets on the line edit, and the
    property [history] of a completer, written with [setProperty] and
    read with [property] as a string list; [removeCompleter] leaves the
    line edit without completer. *)
Class FilterCompleter (Completer : Type) :=
  { installCompleter : Completer;
    setHistoryProperty : list QString -> Completer -> Completer;
    historyProperty : Completer -> list QString }.

Section LineEditSettings.
Context {Completer : Type} `{!FilterCompleter Completer}.
Variable defaults : ConfigDefaults.

(** The line edit with its completer, when it has one, the two stores
    and the number of times [filterChanged] was emitted from the
    menu. *)
Record Session :=
  { lineEdit : FilterLineEdit;
    completer : option Completer;
    stores : Stores;
    menuEmissions : nat }.

(** [FilterLineEdit::loadSettings]; the icons of the buttons are left
    out. *)
Definition loadSettings (s : Session) : Session :=
  let filterRegEx :=
    AppConfig_option_bool (default_filter_regular_expression defaults)
      filter_regular_expression (stores s) in
  let filterCaseSensitive :=
    AppConfig_option_bool (default_filter_case_insensitive defaults)
      filter_case_insensitive (stores s) in
  let w := {| text := text (lineEdit s);
              m_actionRe := filterRegEx;
              m_actionCaseInsensitive := filterCaseSensitive |} in
  if AppConfig_option_bool (default_save_filter_history defaults)
       save_filter_history (stores s)
  then
    match completer s with
    | None =>
        let st := restoreOldFilterHistory (stores s) in
        {| lineEdit := w;
           completer := Some (setHistoryProperty (history st) installCompleter);
           stores := st;
           menuEmissions := menuEmissions s |}
    | Some c =>
        {| lineEdit := w; completer := Some c; stores := stores s;
           menuEmissions := menuEmissions s |}
    end
  else
    {| lineEdit := w; completer := None;
       stores := setHistory [] (stores s);
       menuEmissions := menuEmissions s |}.

(** [FilterLineEdit::hideEvent]. *)
Definition hideEvent (s : Session) : Session :=
  match completer s with
  | Some c =>
      {| lineEdit := lineEdit s; completer := completer s;
         stores := setHistory (historyProperty c) (stores s);
         menuEmissions := menuEmissions s |}
  | None => s
  end.

(** [FilterLineEdit::onMenuAction]. *)
Definition onMenuAction (s : Session) : Session :=
  let st := AppConfig_setOption filter_regular_expression
              (QVBool (m_actionRe (lineEdit s))) (stores s) in
  let st := AppConfig_setOption filter_case_insensitive
              (QVBool (m_actionCaseInsensitive (lineEdit s))) st in
  {| lineEdit := lineEdit s; completer := completer s; stores := st;
     menuEmissions := S (menuEmissions s) |}.

End LineEditSettings.

Arguments Session : clear implicits.

(** ** The main window: keys, browse mode and the timer of the search bar *)

Inductive Key :=
| Key_Q | Key_Down | Key_Up | Key_PageDown | Key_PageUp | Key_Return | Key_Enter
| Key_F1 | Key_F3 | Key_F5 | Key_Escape | Key_Other.

(** A key event: its key, and whether its modifiers are the control
    modifier and no other. *)
Record QKeyEvent := { ev_key : Key; ev_control : bool }.

Inductive ActivationReason := Trigger | MiddleClick | OtherReason.

(** The actions of the menu of the tray icon, as the constructor of the
    window adds them. *)
Inductive TrayAction := ActionShowHide | ActionAction | ActionHelp | ActionExit.

(** What the window asks of the clipboard browser, of its dialogs, of
    the tray icon, of its base class and of the application, in the
    order of the calls.  What it only reads from them is not recorded.
    [ClientCommand] stands for what a command of a client asks of the
    browser and of the action dialog when the command reads its
    arguments with [parse]: [parse] is declared in [client_server.h],
    which is not among the sources. *)
Inductive Call :=
| BrowserKeyEvent (k : Key)
| BrowserMoveToClipboard
| BrowserClearFilter
| BrowserSetCurrent (row : nat)
| BrowserSetFocus
| BrowserFilterItems (s : QString)
| BrowserCheckClipboard
| BrowserAdd (s : QString) (arg : option bool)
| BrowserOpenEditor
| BrowserRemove
| AboutDialogOpened
| ActionDialogOpened
| ActionDialogOpenedAt (row : Z)
| ActionDialogRun (row : Z) (cmd sep : QString) (input output wait : bool)
| TrayMenuShown
| ClientCommand (cmd : QString) (args : list QString)
| OpenDialogsClosed
| BaseKeyPressEvent
| ApplicationExit.

Inductive FocusWidget := FocusClipboardBrowser | FocusSearchBar | FocusOther.

(** The window with its search bar and the label beside it, the widget
    that was given the focus last, the time at which [timer_search]
    fires while it runs, and the calls made so far. *)
Record MainWindow :=
  { m_browsemode : bool;
    searchBar_text : QString;
    searchBar_isHidden : bool;
    findLabel_isHidden : bool;
    focusWidget : FocusWidget;
    isVisible : bool;
    isMinimized : bool;
    timer_search : option nat;
    calls : list Call }.

Definition call (c : Call) (w : MainWindow) : MainWindow :=
  {| m_browsemode := m_browsemode w;
     searchBar_text := searchBar_text w;
     searchBar_isHidden := searchBar_isHidden w;
     findLabel_isHidden := findLabel_isHidden w;
     focusWidget := focusWidget w;
     isVisible := isVisible w;
     isMinimized := isMinimized w;
     timer_search := timer_search w;
     calls := calls w ++ [c] |}.

(** [QWidget::close] sends the close event, and
    [MainWindow::closeEvent] minimizes the window, hides it and ignores
    the event. *)
Definition close (w : MainWindow) : MainWindow :=
  {| m_browsemode := m_browsemode w;
     searchBar_text := searchBar_text w;
     searchBar_isHidden := searchBar_isHidden w;
     findLabel_isHidden := findLabel_isHidden w;
     focusWidget := focusWidget w;
     isVisible := false;
     isMinimized := true;
     timer_search := timer_search w;
     calls := calls w |}.

(** [MainWindow::exit]. *)
Definition exit (w : MainWindow) : MainWindow :=
  call ApplicationExit (close w).

(** [MainWindow::enterBrowseMode]; the selection of the text of the
    search bar is left out. *)
Definition enterBrowseMode (browsemode : bool) (w : MainWindow) : MainWindow :=
  if browsemode then
    let w := call BrowserSetFocus w in
    let hide := isEmpty (searchBar_text w) in
    {| m_browsemode := true;
       searchBar_text := searchBar_text w;
       searchBar_isHidden := if hide then true else searchBar_isHidden w;
       findLabel_isHidden := if hide then true else findLabel_isHidden w;
       focusWidget := FocusClipboardBrowser;
       isVisible := isVisible w;
       isMinimized := isMinimized w;
       timer_search := timer_search w;
       calls := calls w |}
  else
    {| m_browsemode := false;
       searchBar_text := searchBar_text w;
       searchBar_isHidden := false;
       findLabel_isHidden := false;
       focusWidget := FocusSearchBar;
       isVisible := isVisible w;
       isMinimized := isMinimized w;
       timer_search := timer_search w;
       calls := calls w |}.

(** [MainWindow::on_searchBar_textEdited]: the timer is started, or
    started again, with its interval of 100. *)
Definition on_searchBar_textEdited (now : nat) (w : MainWindow) : MainWindow :=
  {| m_browsemode := m_browsemode w;
     searchBar_text := searchBar_text w;
     searchBar_isHidden := searchBar_isHidden w;
     findLabel_isHidden := findLabel_isHidden w;
     focusWidget := focusWidget w;
     isVisible := isVisible w;
     isMinimized := isMinimized w;
     timer_search := Some (now + 100);
     calls := calls w |}.

(** [MainWindow::timerEvent] for the event of [timer_search]. *)
Definition timerEvent (w : MainWindow) : MainWindow :=
  let w := call (BrowserFilterItems (searchBar_text w)) w in
  {| m_browsemode := m_browsemode w;
     searchBar_text := searchBar_text w;
     searchBar_isHidden := searchBar_isHidden w;
     findLabel_isHidden := findLabel_isHidden w;
     focusWidget := focusWidget w;
     isVisible := isVisible w;
     isMinimized := isMinimized w;
     timer_search := None;
     calls := calls w |}.

(** The search bar with another text: [QLineEdit::clear] and the edits
    of the user.  An edit of the user emits [textEdited], [clear] does
    not. *)
Definition setText (s : QString) (w : MainWindow) : MainWindow :=
  {| m_browsemode := m_browsemode w;
     searchBar_text := s;
     searchBar_isHidden := searchBar_isHidden w;
     findLabel_isHidden := findLabel_isHidden w;
     focusWidget := focusWidget w;
     isVisible := isVisible w;
     isMinimized := isMinimized w;
     timer_search := timer_search w;
     calls := calls w |}.

Definition textEdited (now : nat) (s : QString) (w : MainWindow) : MainWindow :=
  on_searchBar_textEdited now (setText s w).

(** [MainWindow::toggleVisible]; closing the dialogs that are open is
    one call. *)
Definition toggleVisible (w : MainWindow) : MainWindow :=
  if isVisible w then close (call OpenDialogsClosed w)
  else
    {| m_browsemode := m_browsemode w;
       searchBar_text := searchBar_text w;
       searchBar_isHidden := searchBar_isHidden w;
       findLabel_isHidden := findLabel_isHidden w;
       focusWidget := focusWidget w;
       isVisible := true;
       isMinimized := false;
       timer_search := timer_search w;
       calls := calls w |}.

(** [MainWindow::trayActivated]. *)
Definition trayActivated (reason : ActivationReason) (w : MainWindow)
  : MainWindow :=
  match reason with
  | MiddleClick => exit w
  | Trigger => toggleVisible w
  | OtherReason => w
  end.

Section BrowseModeDefault.
(** The default of the argument of [enterBrowseMode] is declared in
    [mainwindow.h], which is not among the sources: it is a
    parameter. *)
Variable browsemodeDefault : bool.

(** [MainWindow::resetStatus]. *)
Definition resetStatus (w : MainWindow) : MainWindow :=
  let w := setText [] w in
  let w := call BrowserClearFilter w in
  let w := call (BrowserSetCurrent 0) w in
  enterBrowseMode browsemodeDefault w.

(** [MainWindow::keyPressEvent]. *)
Definition keyPressEvent (event : QKeyEvent) (w : MainWindow) : MainWindow :=
  let w :=
    if ev_control event
    then match ev_key event with Key_Q => exit w | _ => w end
    else w in
  match ev_key event with
  | Key_Down | Key_Up | Key_PageDown | Key_PageUp =>
      call (BrowserKeyEvent (ev_key event)) w
  | Key_Return | Key_Enter =>
      resetStatus (call BrowserMoveToClipboard (close w))
  | Key_F1 => call AboutDialogOpened w
  | Key_F3 => enterBrowseMode false w
  | Key_F5 => call ActionDialogOpened w
  | Key_Escape =>
      if searchBar_isHidden w then close w else resetStatus w
  | _ => call BaseKeyPressEvent w
  end.

(** [MainWindow::enterSearchMode]: the search bar handles the event.
    [edit] is the text the event leaves in the bar when it edits the
    text, and [None] when it does not.  An edit emits [textEdited],
    also when it leaves the text the bar had. *)
Definition enterSearchMode (now : nat) (edit : option QString) (w : MainWindow)
  : MainWindow :=
  let w := enterBrowseMode false w in
  let w := match edit with Some s => textEdited now s w | None => w end in
  if isEmpty (searchBar_text w) then enterBrowseMode true w else w.

(** [MainWindow::action]: the action dialog is given the command and
    runs it. *)
Definition action (row : Z) (cmd sep : QString) (input output wait : bool)
    (w : MainWindow) : MainWindow :=
  call (ActionDialogRun row cmd sep input output wait) w.

(** [QStringList::join]. *)
Fixpoint QStringList_join (sep : QString) (l : list QString) : QString :=
  match l with
  | [] => []
  | [s] => s
  | s :: l' => s ++ sep ++ QStringList_join sep l'
  end.

(** [MainWindow::handleMessage], from the list of arguments that
    [deserialize_args] reads from the message of the client
    ([client_server.h]).  The first argument is the command.  The
    answer that is sent to the client is left out. *)
Definition handleMessage (args : list QString) (w : MainWindow) : MainWindow :=
  let cmd := hd [] args in
  let args := tl args in
  let w := call BrowserCheckClipboard w in
  if bool_decide (cmd = qs "toggle") then toggleVisible w
  else if bool_decide (cmd = qs "exit") then exit w
  else if bool_decide (cmd = qs "menu") then call TrayMenuShown w
  else if bool_decide (cmd = qs "action") then
    if isEmpty args then call (ActionDialogOpenedAt 0) w
    else call (ClientCommand cmd args) w
  else if bool_decide (cmd = qs "add") then
    call (BrowserAdd (QStringList_join (qs " ") args) None) w
  else if bool_decide (cmd = qs "edit") then call (ClientCommand cmd args) w
  else if bool_decide (cmd = qs "new") then
    let w := call (BrowserAdd (QStringList_join (qs " ") args) (Some false)) w in
    let w := call (BrowserSetCurrent 0) w in
    call BrowserOpenEditor w
  else if bool_decide (cmd = qs "select") then call (ClientCommand cmd args) w
  else if bool_decide (cmd = qs "remove") then
    if isEmpty args then call BrowserRemove (call (BrowserSetCurrent 0) w)
    else call (ClientCommand cmd args) w
  else if bool_decide (cmd = qs "length") || bool_decide (cmd = qs "count")
          || bool_decide (cmd = qs "size") then w
  else if bool_decide (cmd = qs "list") then
    if isEmpty args then w else call (ClientCommand cmd args) w
  else w.

(** What reaches the window: a key, a close event, an edit of the text
    of the search bar by the user, the three signals of the clipboard
    browser, the activation of the tray icon, an action of its menu and
    a message of a client.  The event of [RequestSearch] comes with the
    text it leaves in the search bar when it edits the text.  The slots
    that pass a message or an action of the action dialog on to the
    tray icon change nothing of the window and are left out. *)
Inductive Input :=
| KeyPress (event : QKeyEvent)
| CloseEvent
| SearchBarEdited (s : QString)
| RequestSearch (edit : option QString)
| RequestActionDialog (row : Z) (cmd sep : QString) (input output wait : bool)
| HideSearch
| TrayActivated (reason : ActivationReason)
| TrayMenu (a : TrayAction)
| Message (args : list QString).

Definition handle (now : nat) (input : Input) (w : MainWindow) : MainWindow :=
  match input with
  | KeyPress event => keyPressEvent event w
  | CloseEvent => close w
  | SearchBarEdited s => textEdited now s w
  | RequestSearch edit => enterSearchMode now edit w
  | RequestActionDialog row cmd sep input output wait =>
      action row cmd sep input output wait w
  | HideSearch => enterBrowseMode browsemodeDefault w
  | TrayActivated reason => trayActivated reason w
  | TrayMenu ActionShowHide => toggleVisible w
  | TrayMenu ActionAction => call ActionDialogOpened w
  | TrayMenu ActionHelp => call AboutDialogOpened w
  | TrayMenu ActionExit => exit w
  | Message args => handleMessage args w
  end.

(** The timer of the search bar fires when it is due. *)
Definition fire (now : nat) (w : MainWindow) : MainWindow :=
  match timer_search w with
  | Some d => if d <=? now then timerEvent w else w
  | None => w
  end.

(** The event loop: a timer that is due fires before an input of the
    same or a later time is handled. *)
Fixpoint process (w : MainWindow) (inputs : list (nat * Input)) : MainWindow :=
  match inputs with
  | [] => w
  | (t, input) :: rest => process (handle t input (fire t w)) rest
  end.

Definition process_until (horizon : nat) (w : MainWindow)
    (inputs : list (nat * Input)) : MainWindow :=
  fire horizon (process w inputs).

End BrowseModeDefault.

(** [MainWindow::center]: the position the window is moved to, from the
    size of the desktop and the size of the frame of the window.  The
    numbers are of type [int]: 32 bits, two's complement; the division
    rounds towards zero. *)
Definition int (z : Z) : Z := ((z + 2 ^ 31) mod 2 ^ 32 - 2 ^ 31)%Z.

Definition center (screenWidth screenHeight width height : Z) : Z * Z :=
  let x := int (Z.quot (int (screenWidth - width)) 2) in
  let y := int (Z.quot (int (screenHeight - height)) 2) in
  (x, y).

(** * The vocabulary of the properties *)

Section Vocabulary.
Context {pcre : PCRE}.

(** ** Tokens, patterns and what they match *)

(** The tokens of a text: its maximal runs of characters that are not
    white space. *)
Fixpoint tokenize (s : QString) (acc : QString) : list QString :=
  match s with
  | [] => if isEmpty acc then [] else [acc]
  | c :: s' =>
      if is_space c
      then (if isEmpty acc then tokenize s' [] else acc :: tokenize s' [])
      else tokenize s' (acc ++ [c])
  end.

Definition words (s : QString) : list QString := tokenize s [].





(** Lengths of the longest prefix without white space and of the longest
    prefix of white space. *)
Fixpoint nonspace_len (u : QString) : nat :=
  match u with
  | c :: u' => if is_space c then 0 else S (nonspace_len u')
  | [] => 0
  end.

Fixpoint span_spaces (u : QString) : nat :=
  match u with
  | c :: u' => if is_space c then S (span_spaces u') else 0
  | [] => 0
  end.

Definition rws : regex :=
  Cat (Cat (InSet false Space) (Star true (InSet false Space))) Eps.

Definition split_result (source : QString) (keep : bool)
    (p : list QString * nat) : list QString :=
  if negb (snd p =? length source) || keep
  then fst p ++ [drop (snd p) source] else fst p.

Definition dot_star : item := IQuant QStar (InSet false AnyButNewline).

Definition literal_items (t : QString) : list item :=
  map (fun c => IAtom (Chr c)) t.


Definition joined_items (tokens : list QString) : list item :=
  match tokens with
  | [] => []
  | t :: ts => literal_items t ++ flat_map (fun t' => dot_star :: literal_items t') ts
  end.






(** The reader state with the groups [base] open around it. *)
Definition lift (base : list frame) (st : pstate) : pstate :=
  {| p_stack := p_stack st ++ base; p_cur := p_cur st; p_mode := p_mode st |}.

Definition anchored_regex (r : regex) : regex :=
  Cat AssertStart (Cat r (Cat AssertEnd Eps)).

Definition fields_of (keys : list QString) : QModelIndex :=
  {| index_data := list_to_map (map (fun k => (k, QVByteArray [])) keys) |}.

(** ** Occurrences of an expression in a document *)

(** The case option as [QTextDocument::find] of Qt 5 sets it: the search
    ignores case unless the find flags ask for a case-sensitive search,
    and the filter passes no such flag. *)
Definition caseInsensitiveSearch (o : PatternOption) : PatternOption :=
  CaseInsensitiveOption.

Definition before (e1 e2 : nat * QString) : Prop :=
  fst e1 + length (snd e1) < fst e2.

Definition starts_le (m1 m2 : nat * nat) : Prop := fst m1 <= fst m2.

Definition is_match (re : QRegularExpression) (w : QString) (r : regex)
    (m : nat * nat) : Prop :=
  fst m <= snd m /\ snd m <= length w /\
  Matches (caseless re) w r (fst m) (snd m).

(** The iteration ends before its fuel does: a match ends later than
    the one before it, or ends where that one ended and is empty when
    that one was not. *)
Definition progress (m : nat * nat) : nat :=
  2 * snd m + (if fst m =? snd m then 1 else 0).

(** [occurs_at expr table p q]: the expression matches inside one block,
    from position [p] to position [q] of the document. *)
Definition occurs_at (expr : QRegularExpression) (table : list (nat * QString))
    (p q : nat) : Prop :=
  exists blockPos b r,
    (blockPos, b) ∈ table /\ compiled expr = Some r /\
    blockPos <= p /\ p <= q /\ q <= blockPos + length b /\
    Matches (caseless expr) (block_text b) r (p - blockPos) (q - blockPos).

(** [enumerated expr table p q]: the match from [p] to [q] is one of
    those [globalMatch] lists for its block. *)
Definition enumerated (expr : QRegularExpression) (table : list (nat * QString))
    (p q : nat) : Prop :=
  exists blockPos b m,
    (blockPos, b) ∈ table /\ m ∈ globalMatch expr (block_text b) /\
    p = blockPos + fst m /\ q = blockPos + snd m.

(** The first occurrence that starts at [from] or later. *)
Definition next_occurrence (expr : QRegularExpression) (table : list (nat * QString))
    (from : nat) (c : TextCursor) : Prop :=
  occurs_at expr table (cur_anchor c) (cur_position c) /\
  from <= cur_anchor c /\
  forall p q, from <= p < cur_anchor c -> ~ occurs_at expr table p q.

(** The last enumerated occurrence that starts before [from]: it leaves
    no occurrence behind it, that is, none starts at its end or later
    and before [from]; where it is empty, none but empty ones start
    there. *)
Definition previous_occurrence (expr : QRegularExpression)
    (table : list (nat * QString)) (from : nat) (c : TextCursor) : Prop :=
  occurs_at expr table (cur_anchor c) (cur_position c) /\
  enumerated expr table (cur_anchor c) (cur_position c) /\
  cur_anchor c < from /\
  (forall p q, enumerated expr table p q -> p < from -> p <= cur_anchor c) /\
  (forall p q, occurs_at expr table p q -> p < from ->
               p < cur_position c \/ p = cur_anchor c).

(** What a search from [from] reaches, and what it says when it finds
    nothing. *)
Definition reached (expr : QRegularExpression) (doc : QString)
    (backwards : bool) (from : nat) (c : TextCursor) : Prop :=
  if backwards then previous_occurrence expr (blocks doc) from c
  else next_occurrence expr (blocks doc) from c.

Definition none_from (expr : QRegularExpression) (doc : QString)
    (backwards : bool) (from : nat) : Prop :=
  forall p q, (if backwards then p < from else from <= p) ->
              ~ occurs_at expr (blocks doc) p q.

Definition edit_at (doc : QString) (p : nat) : QTextEdit :=
  {| document := doc;
     textCursor := Some {| cur_anchor := p; cur_position := p |};
     extraSelections := [] |}.

(** ** Edits in time, and the history without duplicates *)

(** Edits that follow one another within the interval. *)
Fixpoint rapid (t : nat) (times : list nat) : Prop :=
  match times with
  | [] => True
  | t' :: rest => t <= t' /\ t' < t + interval /\ rapid t' rest
  end.

Definition focused_idle : Widget := {| hasFocus := true; m_timerSearch := None |}.

(** The first occurrences of the strings of a list, in their order. *)
Fixpoint first_occurrences (l : list QString) : list QString :=
  match l with
  | [] => []
  | s :: l' => s :: List.filter (fun s' => negb (bool_decide (s' = s)))
                                (first_occurrences l')
  end.

(** What a settings file in INI format gives back for a value written
    to it: an empty string list is written as the invalid value and
    read back as such; every other value of the model is read back as
    it was written. *)
Definition read_back (v : QVariant) : QVariant :=
  match v with
  | QVStringList [] => QVInvalid
  | _ => v
  end.

(** Stores in which the old key holds an empty list that was written
    to the settings file. *)
Definition empty_legacy_example : Stores :=
  {| appConfig := {[ optionFilterHistory := read_back (QVStringList []) ]};
     m_settings := {[ optionFilterHistory := QVStringList [qs "y"] ]} |}.

Definition legacy_example : Stores :=
  {| appConfig := {[ optionFilterHistory := QVStringList [qs "x"; qs "y"] ]};
     m_settings := {[ optionFilterHistory := QVStringList [qs "y"; qs "z"] ]} |}.

(** ** What [highlight] selects *)

(** A selection of the highlight: a non-empty occurrence of the
    expression within the document. *)
Definition selection_of (expr : QRegularExpression) (doc : QString)
    (s : TextCursor) : Prop :=
  cur_anchor s < cur_position s /\ cur_position s <= length doc /\
  occurs_at expr (blocks doc) (cur_anchor s) (cur_position s).

(** One selection ends before the other starts. *)
Definition follows (s1 s2 : TextCursor) : Prop :=
  cur_position s1 <= cur_anchor s2.

(** What the loop of the highlight keeps: the cursor, when it is not
    null, is at an occurrence that starts where the selections so far
    have ended, and [a] is its position. *)
Definition highlight_cursor (expr : QRegularExpression) (doc : QString)
    (cur : QTextCursor) (a : Z) (selections : list TextCursor) : Prop :=
  forall x, cur = Some x ->
    a = Z.of_nat (cur_position x) /\
    cur_anchor x <= cur_position x /\ cur_position x <= length doc /\
    occurs_at expr (blocks doc) (cur_anchor x) (cur_position x) /\
    Forall (fun s => follows s x) selections.





End Vocabulary.

(** A library that compiles one pattern, the character class of the
    letters a, b and c, and refuses every other pattern that is left to
    it. *)
Definition character_class_abc : PCRE :=
  fun p =>
    if bool_decide (p = qs "[abc]") then
      Some (fun caseless w i =>
              match w !! i with
              | Some c =>
                  if existsb (char_eqb caseless c) (qs "abc") then [S i] else []
              | None => []
              end)
    else None.

(** ** The search timer over any run of events *)

(** The timer runs only while the widget has the focus. *)
Definition timer_needs_focus (w : Widget) : Prop :=
  forall d, m_timerSearch w = Some d -> hasFocus w = true.

(** One when the timer runs, zero when it does not. *)
Definition pending (w : Widget) : nat :=
  match m_timerSearch w with Some _ => 1 | None => 0 end.

Definition is_text_change (e : nat * Event) : bool :=
  match snd e with TextChanged => true | _ => false end.

Definition text_changes (events : list (nat * Event)) : nat :=
  length (List.filter is_text_change events).

Definition is_menu_action (e : nat * Event) : bool :=
  match snd e with MenuTriggered => true | _ => false end.

Definition menu_actions (events : list (nat * Event)) : nat :=
  length (List.filter is_menu_action events).

(** The events that follow a change of the text at [t]: none is earlier
    than [t], and the horizon is an interval or more after each. *)
Definition followed_by (t horizon : nat) (events : list (nat * Event)) : Prop :=
  Forall (fun e => t <= fst e /\ fst e + interval <= horizon) events.

(** ** The settings of the line edit *)


(** A completer that is nothing but its history. *)
#[global] Instance history_completer : FilterCompleter (list QString) :=
  {| installCompleter := [];
     setHistoryProperty := fun h _ => h;
     historyProperty := fun c => c |}.

Definition example_defaults : ConfigDefaults :=
  {| default_filter_regular_expression := false;
     default_filter_case_insensitive := true;
     default_save_filter_history := false |}.

(** A line edit without completer, over the stores of the example of
    the migration, with the history switched on or off. *)
Definition example_session (saveHistory : bool) : Session (list QString) :=
  {| lineEdit := {| text := qs "foo"; m_actionRe := true;
                    m_actionCaseInsensitive := false |};
     completer := None;
     stores := AppConfig_setOption save_filter_history (QVBool saveHistory)
                 legacy_example;
     menuEmissions := 0 |}.

(** ** The main window *)

(** The search bar and its label are hidden and shown together, and in
    search mode they are shown. *)
Definition bar_and_label (w : MainWindow) : Prop :=
  searchBar_isHidden w = findLabel_isHidden w /\
  (m_browsemode w = false -> searchBar_isHidden w = false).

(** The text the clipboard browser was last asked to filter by: the
    empty text after [clearFilter]. *)
Definition filter_call (shown : option QString) (c : Call) : option QString :=
  match c with
  | BrowserFilterItems s => Some s
  | BrowserClearFilter => Some []
  | _ => shown
  end.

Definition filtered_by (cs : list Call) : option QString :=
  fold_left filter_call cs None.

(** While the timer does not run, the browser filters by the text of
    the search bar. *)
Definition filter_in_sync (w : MainWindow) : Prop :=
  timer_search w = None -> filtered_by (calls w) = Some (searchBar_text w).

(** The inputs that end the application: control and Q, the middle
    button on the tray icon, the last action of its menu and the
    command [exit] of a client. *)
Definition quits (input : Input) : bool :=
  match input with
  | KeyPress event =>
      ev_control event && match ev_key event with Key_Q => true | _ => false end
  | TrayActivated MiddleClick => true
  | TrayMenu ActionExit => true
  | Message args => bool_decide (hd [] args = qs "exit")
  | _ => false
  end.

(** The inputs that start the timer of the search bar: the edits of its
    text. *)
Definition starts_timer (input : Input) : bool :=
  match input with
  | SearchBarEdited _ | RequestSearch (Some _) => true
  | _ => false
  end.

(** A window whose clipboard browser was never asked to filter, as at
    the start of the application: in browse mode, with nothing in the
    search bar. *)
Definition fresh_window : MainWindow :=
  {| m_browsemode := true;
     searchBar_text := [];
     searchBar_isHidden := true;
     findLabel_isHidden := true;
     focusWidget := FocusClipboardBrowser;
     isVisible := false;
     isMinimized := false;
     timer_search := None;
     calls := [BrowserSetFocus] |}.

(** A window in search mode with a text in its search bar. *)
Definition searching_window : MainWindow :=
  {| m_browsemode := false;
     searchBar_text := qs "foo";
     searchBar_isHidden := false;
     findLabel_isHidden := false;
     focusWidget := FocusSearchBar;
     isVisible := true;
     isMinimized := false;
     timer_search := None;
     calls := [BrowserFilterItems (qs "foo")] |}.

(** The timer, when it runs, fires by the horizon. *)
Definition due_by (horizon : nat) (w : MainWindow) : Prop :=
  forall d, timer_search w = Some d -> d <= horizon.

(** A length that an [int] holds and that is not negative. *)
Definition int_length (z : Z) : Prop := (0 <= z < 2 ^ 31)%Z.

(** The margins before and after a window of a width at [x] on a screen
    differ by one at most. *)
Definition centred (screen width x : Z) : Prop :=
  (-1 <= (screen - (x + width)) - x <= 1)%Z.

(** * Properties of the model *)

Section Properties.
Context {pcre : PCRE}.

(** ** The matcher computes the matching relation *)

Section Matcher.
Variable caseless : bool.
Variable w : QString.

Lemma Matches_le r i j : Matches caseless w r i j -> i <= j.
Proof. induction 1; lia. Qed.

Lemma Matches_bound r i j :
  Matches caseless w r i j -> i < j -> j <= length w.
Proof.
  induction 1; intros Hlt; try lia;
    try (match goal with H : _ !! _ = Some _ |- _ =>
           apply lookup_lt_Some in H; lia end);
    try (match goal with
         | H1 : Matches _ _ _ ?i ?j, H2 : Matches _ _ _ ?j ?k |- _ =>
             apply Matches_le in H1, H2;
             destruct (decide (j < k)); [auto | ];
             assert (j = k) by lia; subst; auto
         end);
    auto.
Qed.

Lemma star_ends_sound g r :
  (forall i k, In k (ends caseless w r i) -> Matches caseless w r i k) ->
  forall fuel i k,
    In k (star_ends g (ends caseless w r) fuel i) ->
    Matches caseless w (Star g r) i k.
Proof.
  intros IH fuel. induction fuel as [|fuel IHf]; intros i k Hin; simpl in Hin.
  - destruct Hin as [<-|[]]. constructor.
  - assert (Hmore : In k (flat_map (fun j => if i <? j
              then star_ends g (ends caseless w r) fuel j else [i])
              (ends caseless w r i)) -> Matches caseless w (Star g r) i k).
    { intros Hm. apply in_flat_map in Hm as (j & Hj & Hk).
      destruct (i <? j); [|destruct Hk as [<-|[]]; constructor].
      eapply MStarIter; eauto. }
    destruct g.
    + apply in_app_iff in Hin as [Hm|[<-|[]]]; [auto | constructor].
    + destruct Hin as [<-|Hm]; [constructor | auto].
Qed.

Lemma star_ends_stop g step fuel i : In i (star_ends g step fuel i).
Proof.
  destruct fuel; simpl; [now left|].
  destruct g; [apply in_app_iff; right|]; now left.
Qed.

Lemma star_ends_iter g step fuel i j k :
  In j (step i) -> i < j -> In k (star_ends g step fuel j) ->
  In k (star_ends g step (S fuel) i).
Proof.
  intros Hj Hlt Hk. simpl.
  assert (Hm : In k (flat_map (fun j => if i <? j
              then star_ends g step fuel j else [i]) (step i))).
  { apply in_flat_map. exists j. split; [done|].
    apply Nat.ltb_lt in Hlt. now rewrite Hlt. }
  destruct g; [apply in_app_iff; now left | now right].
Qed.

Lemma star_ends_complete g r :
  (forall i k, Matches caseless w r i k -> In k (ends caseless w r i)) ->
  forall i k, Matches caseless w (Star g r) i k ->
  forall fuel, length w - i < fuel ->
    In k (star_ends g (ends caseless w r) fuel i).
Proof.
  intros IH i k H. remember (Star g r) as sr eqn:Hsr.
  induction H; inversion Hsr; subst; intros fuel Hfuel.
  - apply star_ends_stop.
  - destruct (decide (i = j)) as [->|Hne].
    + now apply IHMatches2.
    + assert (i < j) by (apply Matches_le in H; lia).
      assert (j <= length w) by (eapply Matches_bound; eauto).
      destruct fuel as [|fuel]; [lia|].
      eapply star_ends_iter; [apply IH; eassumption | done |].
      apply IHMatches2; [done | lia].
Qed.

Theorem ends_correct r i k :
  In k (ends caseless w r i) <-> Matches caseless w r i k.
Proof.
  revert i k. induction r; intros i k; cbn [ends].
  - split; [intros [<-|[]]; constructor | inversion 1; now left].
  - split.
    + destruct (w !! i) as [c'|] eqn:Hw; [|intros []].
      destruct (char_eqb caseless c c') eqn:Hc; [|intros []].
      intros [<-|[]]. econstructor; eauto.
    + inversion 1 as [|? ? ? Hw Hc| | | | | | | | | | |]; subst.
      rewrite Hw, Hc. now left.
  - split.
    + destruct (w !! i) as [c'|] eqn:Hw; [|intros []].
      destruct (xorb neg (charset_mem cs c')) eqn:Hc; [|intros []].
      intros [<-|[]]. econstructor; eauto.
    + inversion 1 as [| |? ? ? ? Hw Hc| | | | | | | | | |]; subst.
      rewrite Hw, Hc. now left.
  - split.
    + destruct (i =? 0) eqn:Hi; [|intros []].
      apply Nat.eqb_eq in Hi. intros [<-|[]]. subst. constructor.
    + inversion 1; subst. now left.
  - split.
    + destruct (i =? length w) eqn:Hi; [|intros []].
      apply Nat.eqb_eq in Hi. intros [<-|[]]. subst. constructor.
    + inversion 1; subst. rewrite Nat.eqb_refl. now left.
  - split.
    + destruct (i =? length w) eqn:Hi.
      { apply Nat.eqb_eq in Hi. intros [<-|[]]. subst. constructor. }
      destruct (S i =? length w) eqn:Hs; [|intros []].
      rewrite andb_true_l. case_bool_decide as Hlf; [|intros []].
      apply Nat.eqb_eq in Hs. intros [<-|[]]. now apply MEndOrNewlineLF.
    + inversion 1; subst.
      * rewrite Nat.eqb_refl. now left.
      * destruct (k =? length w); [now left|].
        match goal with H : S _ = length _ |- _ =>
          apply Nat.eqb_eq in H; rewrite H end.
        rewrite andb_true_l, bool_decide_eq_true_2 by done. now left.
  - rewrite in_flat_map. split.
    + intros (j & Hj & Hk). econstructor; [apply IHr1|apply IHr2]; eauto.
    + inversion 1; subst. exists j. split; [apply IHr1|apply IHr2]; done.
  - rewrite in_app_iff. split.
    + intros [H|H]; [apply MAltL, IHr1|apply MAltR, IHr2]; done.
    + inversion 1; subst; [left; apply IHr1|right; apply IHr2]; done.
  - split.
    + apply star_ends_sound. intros; now apply IHr.
    + intros H. apply star_ends_complete; [|done|lia].
      intros; now apply IHr.
  - rewrite filter_In, andb_true_iff, Nat.leb_le, Nat.leb_le. split.
    + intros (Hin & Hi & Hk). now constructor.
    + inversion 1; subst. done.
Qed.

(** [search_from] reports the leftmost start position with a match. *)
Lemma search_from_Some r n s s' e :
  search_from caseless w r n s = Some (s', e) ->
  s <= s' < s + n /\ Matches caseless w r s' e /\
  (forall t e', s <= t < s' -> ~ Matches caseless w r t e').
Proof.
  revert s. induction n as [|n IH]; intros s; simpl; [done|].
  destruct (ends caseless w r s) as [|e0 l] eqn:He.
  - intros H. apply IH in H as (Hr & Hm & Hleft).
    split; [lia|]. split; [done|].
    intros t e' Ht Hmt.
    destruct (decide (t = s)) as [->|Hne].
    + apply ends_correct in Hmt. rewrite He in Hmt. destruct Hmt.
    + apply (Hleft t e'); [lia|done].
  - intros [= <- <-]. split; [lia|]. split.
    + apply ends_correct. rewrite He. now left.
    + intros; lia.
Qed.

Lemma search_from_None r n s :
  search_from caseless w r n s = None ->
  forall t e, s <= t < s + n -> ~ Matches caseless w r t e.
Proof.
  revert s. induction n as [|n IH]; intros s; simpl; [intros; lia|].
  destruct (ends caseless w r s) as [|e0 l] eqn:He; [|done].
  intros H t e Ht Hm.
  destruct (decide (t = s)) as [->|Hne].
  - apply ends_correct in Hm. rewrite He in Hm. destruct Hm.
  - apply (IH _ H t e); [lia|done].
Qed.

End Matcher.

(** ** Splitting on white space *)

Lemma compiled_reWhiteSpace : compiled reWhiteSpace = Some rws.
Proof. reflexivity. Qed.

Section WhiteSpaceSplit.
Variable w : QString.

Lemma ws_star_ends (step : nat -> list nat) fuel s :
  (forall i, step i = match w !! i with
                      | Some c => if is_space c then [S i] else []
                      | None => []
                      end) ->
  length w - s < fuel ->
  exists tl, star_ends true step fuel s = (s + span_spaces (drop s w)) :: tl.
Proof.
  intros Hstep. revert s. induction fuel as [|fuel IH]; intros s Hf; [lia|].
  cbn [star_ends]. rewrite Hstep.
  destruct (w !! s) as [c|] eqn:Hw.
  - rewrite (drop_S _ _ _ Hw). cbn [span_spaces].
    destruct (is_space c) eqn:Hc; cbn [flat_map].
    + assert (Hlt : (s <? S s) = true) by (apply Nat.ltb_lt; lia).
      rewrite Hlt, app_nil_r.
      apply lookup_lt_Some in Hw.
      destruct (IH (S s)) as [tl Htl]; [lia|].
      rewrite Htl. exists (tl ++ [s]). simpl. f_equal. lia.
    + exists []. simpl. f_equal. lia.
  - exists []. apply lookup_ge_None in Hw.
    rewrite drop_ge by lia. simpl. f_equal. lia.
Qed.

Lemma ws_ends_space s c :
  w !! s = Some c -> is_space c = true ->
  exists tl, ends false w rws s = (s + span_spaces (drop s w)) :: tl.
Proof.
  intros Hw Hc. unfold rws.
  change (ends false w (Cat (Cat (InSet false Space) (Star true (InSet false Space))) Eps) s)
    with (flat_map (fun j => [j])
            (flat_map (fun i => star_ends true (ends false w (InSet false Space))
                                  (S (length w - i)) i)
                      (ends false w (InSet false Space) s))).
  cbn [ends]. rewrite Hw. cbn [xorb charset_mem].
  rewrite Hc. cbn [flat_map]. rewrite app_nil_r.
  destruct (ws_star_ends (ends false w (InSet false Space))
              (S (length w - S s)) (S s)) as [tl Htl]; [done|lia|].
  cbn [ends] in Htl. cbn [xorb charset_mem] in Htl.
  rewrite Htl. rewrite (drop_S _ _ _ Hw). cbn [span_spaces]. rewrite Hc.
  cbn [flat_map]. eexists. simpl. f_equal. lia.
Qed.

Lemma ws_ends_other s :
  (forall c, w !! s = Some c -> is_space c = false) ->
  ends false w rws s = [].
Proof.
  intros H. unfold rws. cbn [ends].
  destruct (w !! s) as [c|]; [|done].
  cbn [xorb charset_mem]. now rewrite (H c eq_refl).
Qed.

Lemma search_ws_end n s :
  length w <= s -> search_from false w rws n s = None.
Proof.
  revert s. induction n as [|n IH]; intros s Hs; [done|].
  cbn [search_from]. rewrite ws_ends_other.
  - apply IH. lia.
  - intros c Hc. apply lookup_lt_Some in Hc. lia.
Qed.

Lemma search_ws n s :
  length w - s < n ->
  search_from false w rws n s =
    let u := drop s w in
    let k := nonspace_len u in
    if k <? length u
    then Some (s + k, s + k + span_spaces (drop k u))
    else None.
Proof.
  revert s. induction n as [|n IH]; intros s Hn; [lia|].
  cbn [search_from]. cbv zeta.
  destruct (w !! s) as [c|] eqn:Hw.
  - rewrite (drop_S _ _ _ Hw). cbn [nonspace_len length].
    destruct (is_space c) eqn:Hc.
    + destruct (ws_ends_space s c Hw Hc) as [tl ->].
      rewrite (drop_S _ _ _ Hw). cbn [drop Nat.ltb Nat.leb].
      do 2 f_equal; lia.
    + rewrite ws_ends_other by (intros c' Hc'; congruence).
      apply lookup_lt_Some in Hw.
      rewrite IH by lia. cbv zeta. cbn [drop].
      change (S (nonspace_len (drop (S s) w)) <? S (length (drop (S s) w)))
        with (nonspace_len (drop (S s) w) <? length (drop (S s) w)).
      destruct (nonspace_len (drop (S s) w) <? length (drop (S s) w));
        [|done].
      do 2 f_equal; lia.
  - apply lookup_ge_None in Hw.
    rewrite ws_ends_other
      by (intros c Hc; apply lookup_lt_Some in Hc; lia).
    rewrite search_ws_end by lia.
    rewrite drop_ge by lia. done.
Qed.

End WhiteSpaceSplit.

Lemma nonspace_len_le u : nonspace_len u <= length u.
Proof. induction u as [|c u IH]; simpl; [lia|]. destruct (is_space c); simpl; lia. Qed.

Lemma tokenize_nonspace u acc :
  tokenize u acc =
  tokenize (drop (nonspace_len u) u) (acc ++ take (nonspace_len u) u).
Proof.
  revert acc. induction u as [|c u IH]; intros acc; simpl.
  - now rewrite app_nil_r.
  - destruct (is_space c) eqn:Hc; simpl.
    + now rewrite app_nil_r, Hc.
    + rewrite IH. now rewrite <- app_assoc.
Qed.

Lemma tokenize_spaces u :
  tokenize u [] = tokenize (drop (span_spaces u) u) [].
Proof.
  induction u as [|c u IH]; simpl; [done|].
  destruct (is_space c) eqn:Hc; simpl; [done|]. now rewrite Hc.
Qed.

Lemma tokenize_at_space u acc :
  nonspace_len u = 0 ->
  tokenize u acc =
  (if isEmpty acc then [] else [acc]) ++ tokenize (drop (span_spaces u) u) [].
Proof.
  destruct u as [|c u]; simpl.
  - destruct acc; done.
  - destruct (is_space c) eqn:Hc; [|done]. intros _.
    rewrite (tokenize_spaces u). destruct acc; done.
Qed.

Lemma nonspace_len_drop u : nonspace_len (drop (nonspace_len u) u) = 0.
Proof.
  induction u as [|c u IH]; simpl; [done|].
  destruct (is_space c) eqn:Hc; simpl; [now rewrite Hc|done].
Qed.

Lemma span_spaces_le u : span_spaces u <= length u.
Proof. induction u as [|c u IH]; simpl; [lia|]. destruct (is_space c); simpl; lia. Qed.

Lemma span_spaces_after_nonspace u :
  nonspace_len u < length u -> 1 <= span_spaces (drop (nonspace_len u) u).
Proof.
  induction u as [|c u IH]; simpl; [lia|].
  destruct (is_space c) eqn:Hc; simpl.
  - rewrite Hc. lia.
  - intros H. apply IH. lia.
Qed.

Lemma split_unfold source re behavior :
  isValid re = true ->
  split source re behavior =
  let keep := match behavior with KeepEmptyParts => true | SkipEmptyParts => false end in
  split_result source keep
    (fold_left (split_step source keep) (globalMatch re source) ([], 0)).
Proof.
  intros Hv. unfold split, split_result. rewrite Hv. cbv zeta.
  now destruct (fold_left _ _ _) as [l start].
Qed.

Lemma re_match_reWhiteSpace w o :
  o <= length w ->
  re_match reWhiteSpace w o =
    let u := drop o w in
    let k := nonspace_len u in
    if k <? length u
    then Some (o + k, o + k + span_spaces (drop k u))
    else None.
Proof.
  intros Ho. unfold re_match. rewrite compiled_reWhiteSpace.
  apply search_ws. lia.
Qed.

Lemma split_loop w fuel o acc :
  o <= length w -> length w - o < fuel ->
  split_result w false
    (fold_left (split_step w false)
       (iterate_matches reWhiteSpace w fuel (re_match reWhiteSpace w o))
       (acc, o))
  = acc ++ tokenize (drop o w) [].
Proof.
  revert o acc. induction fuel as [|fuel IH]; intros o acc Ho Hf; [lia|].
  rewrite re_match_reWhiteSpace by done. cbv zeta.
  set (u := drop o w). set (k := nonspace_len u).
  assert (Hlen : length u = length w - o) by (unfold u; apply length_drop).
  assert (Hk : k <= length u) by apply nonspace_len_le.
  rewrite (tokenize_nonspace u []). fold k. rewrite app_nil_l.
  destruct (k <? length u) eqn:Hlt.
  - apply Nat.ltb_lt in Hlt.
    pose proof (span_spaces_after_nonspace u Hlt) as Hsp. fold k in Hsp.
    pose proof (span_spaces_le (drop k u)) as Hsp'.
    rewrite length_drop in Hsp'.
    cbn [iterate_matches fold_left]. unfold nextMatch. cbn [fst snd].
    assert (Hne : (o + k =? o + k + span_spaces (drop k u)) = false)
      by (apply Nat.eqb_neq; lia).
    rewrite Hne. unfold split_step at 2. cbn [fst snd].
    rewrite IH by lia.
    rewrite (tokenize_at_space (drop k u) (take k u))
      by apply nonspace_len_drop.
    unfold u at 5. rewrite !drop_drop.
    replace (o + k + span_spaces (drop k u)) with (o + (k + span_spaces (drop k u))) by lia.
    rewrite orb_false_r.
    assert (Htake : (if negb (o =? o + k) then acc ++ [mid w o (o + k - o)] else acc)
                    = acc ++ (if isEmpty (take k u) then [] else [take k u])).
    { destruct (decide (k = 0)) as [Hk0|Hk0].
      - rewrite Hk0, Nat.add_0_r, Nat.eqb_refl. simpl. now rewrite app_nil_r.
      - assert (Hne' : (o =? o + k) = false) by (apply Nat.eqb_neq; lia).
        rewrite Hne'. cbn [negb]. rewrite Nat.add_comm, Nat.add_sub.
        unfold mid. fold u.
        destruct u as [|c u']; [simpl in Hlt; lia|].
        destruct k; [lia | done]. }
    rewrite Htake. now rewrite <- app_assoc.
  - apply Nat.ltb_ge in Hlt. assert (k = length u) as Hku by lia.
    cbn [iterate_matches fold_left]. unfold split_result. cbn [fst snd].
    rewrite Hku, drop_all, firstn_all. cbn [tokenize]. rewrite orb_false_r.
    destruct (o =? length w) eqn:Ho'.
    + apply Nat.eqb_eq in Ho'. fold u. clearbody u.
      destruct u; [now rewrite app_nil_r | simpl in Hlen; lia].
    + apply Nat.eqb_neq in Ho'. fold u. clearbody u.
      destruct u; [simpl in Hlen; lia | done].
Qed.

(** [split] with the white-space expression yields the words of the
    text. *)
Lemma split_reWhiteSpace w : split w reWhiteSpace SkipEmptyParts = words w.
Proof.
  rewrite split_unfold by reflexivity. cbv zeta. unfold globalMatch.
  rewrite split_loop by lia. reflexivity.
Qed.

(** ** Reading an escaped text *)



Lemma is_octal_digit_word c : is_octal_digit c = true -> is_word c = true.
Proof.
  destruct c as [[|] [|] [|] [|] [|] [|] [|] [|]]; intros H;
    first [reflexivity | vm_compute in H; discriminate H].
Qed.

Lemma run_pattern_app st p q :
  run_pattern st (p ++ q) =
  match run_pattern st p with
  | Some st' => run_pattern st' q
  | None => None
  end.
Proof.
  revert st. induction p as [|c p IH]; intros st; simpl; [done|].
  destruct (pstep st c); [apply IH | done].
Qed.

Lemma push_item_set_seq it seq st :
  push_item it (set_seq seq st) = set_seq (it :: seq) st.
Proof. reflexivity. Qed.







(** ** The pattern built from the tokens *)












(** ** Every pattern built from tokens compiles *)








(** ** What a pattern of joined tokens matches *)

Section JoinedTokens.
Variable caseless : bool.
Variable w : QString.

Lemma Matches_cat r1 r2 i k :
  Matches caseless w (Cat r1 r2) i k <->
  exists j, Matches caseless w r1 i j /\ Matches caseless w r2 j k.
Proof.
  split.
  - inversion 1; subst. eauto.
  - intros (j & H1 & H2). econstructor; eauto.
Qed.


Lemma Matches_eps i k : Matches caseless w Eps i k <-> k = i.
Proof. split; [inversion 1; done | intros ->; constructor]. Qed.






End JoinedTokens.

(** [contains] is a search for a match that starts anywhere in the
    subject. *)
Lemma contains_spec s re :
  contains s re = true <->
  exists r, compiled re = Some r /\
    exists i j, i <= length s /\ Matches (caseless re) s r i j.
Proof.
  unfold contains, re_match. destruct (compiled re) as [r|]; [|split; [done|]].
  - rewrite Nat.sub_0_r.
    destruct (search_from (caseless re) s r (S (length s)) 0) as [[i j]|] eqn:Hs.
    + apply search_from_Some in Hs as (Hi & Hm & _).
      split; [|done]. intros _. exists r. split; [done|]. exists i, j.
      split; [lia | done].
    + split; [done|]. intros (r' & [= <-] & i & j & Hi & Hm).
      exfalso. eapply search_from_None; [exact Hs| |exact Hm]. lia.
  - intros (r & ? & _). done.
Qed.

(** ** The filter compiled from a raw text *)











(** ** Reading a pattern inside a group *)

Lemma apply_token_lift base t st st' :
  apply_token t st = Some st' ->
  apply_token t (lift base st) = Some (lift base st').
Proof.
  destruct st as [stack cur mode].
  destruct t; cbn [apply_token lift p_stack p_cur p_mode];
    try (intros [= <-]; reflexivity); try done.
  - destruct (f_seq cur) as [|[r|q0 r|r] seq]; try done.
    + intros [= <-]. reflexivity.
    + destruct q; try done. intros [= <-]. reflexivity.
  - destruct stack as [|fr stack]; [done|]. intros [= <-]. reflexivity.
Qed.

Lemma pstep_lift base st c st' :
  pstep st c = Some st' -> pstep (lift base st) c = Some (lift base st').
Proof.
  unfold pstep. cbn [lift p_mode].
  destruct (p_mode st) as [| |[|n]| |]; try apply apply_token_lift.
  - destruct (is_octal_digit c); [|apply apply_token_lift].
    unfold octal_digit. cbn [lift p_cur].
    destruct (f_seq (p_cur st)) as [|[[]|?|?] seq]; try done.
    intros [= <-]. reflexivity.
  - destruct (Ascii.eqb c "?"); [|apply apply_token_lift].
    intros [= <-]. reflexivity.
  - destruct (Ascii.eqb c ":"); [|done]. intros [= <-]. reflexivity.
Qed.

Lemma run_pattern_lift base p : forall st st',
  run_pattern st p = Some st' ->
  run_pattern (lift base st) p = Some (lift base st').
Proof.
  induction p as [|c p IH]; intros st st'; cbn [run_pattern].
  - intros [= <-]. reflexivity.
  - destruct (pstep st c) as [st1|] eqn:Hs; [|done].
    rewrite (pstep_lift base _ _ _ Hs). apply IH.
Qed.

Lemma compiled_anchoredRegExp pat r :
  parse_pattern pat = Some r ->
  compiled (anchoredRegExp pat) = Some (anchored_regex r).
Proof.
  unfold parse_pattern, compiled, anchoredRegExp. cbn [pattern].
  destruct (run_pattern pstate0 pat) as [st|] eqn:Hrun; [|done].
  intros Hfin. unfold parse_pattern.
  set (base := [{| f_alts := []; f_seq := [IFixed AssertStart] |}]).
  rewrite run_pattern_app.
  change (run_pattern pstate0 (qs "\A(?:")) with (Some (lift base pstate0)).
  cbv iota beta. rewrite run_pattern_app, (run_pattern_lift base _ _ _ Hrun).
  unfold finish in Hfin.
  destruct st as [stack cur mode]. cbn [p_stack p_mode p_cur] in Hfin.
  destruct stack; [|done].
  assert (Hclose : pstep (lift base {| p_stack := []; p_cur := cur; p_mode := mode |}) ")"
                   = Some {| p_stack := [];
                             p_cur := {| f_alts := [];
                                         f_seq := [IAtom (frame_regex cur);
                                                   IFixed AssertStart] |};
                             p_mode := LNormal |}).
  { destruct mode as [| |[|n]| |]; try done. }
  cbn [qs list_ascii_of_string run_pattern]. rewrite Hclose.
  assert (Hr : frame_regex cur = r) by (destruct mode; congruence).
  rewrite Hr. reflexivity.
Qed.

Lemma Matches_anchored caseless w r i j :
  Matches caseless w (anchored_regex r) i j <->
  i = 0 /\ j = length w /\ Matches caseless w r 0 (length w).
Proof.
  unfold anchored_regex. split.
  - intros H. apply Matches_cat in H as (k & Hs & H).
    inversion Hs; subst.
    apply Matches_cat in H as (k & Hr & H).
    apply Matches_cat in H as (k' & He & H).
    inversion He; subst. inversion H; subst. done.
  - intros (-> & -> & Hr).
    repeat (econstructor; eauto).
Qed.

(** With a pattern that compiles, the anchored expression is contained
    in a key exactly when the pattern matches the whole key, with the
    case of the letters as it is written. *)
Lemma contains_anchoredRegExp key pat r :
  parse_pattern pat = Some r ->
  contains key (anchoredRegExp pat) = true <->
  Matches false key r 0 (length key).
Proof.
  intros Hp. rewrite contains_spec, (compiled_anchoredRegExp _ _ Hp).
  cbn [caseless anchoredRegExp patternOptions]. split.
  - intros (r' & [= <-] & i & j & _ & H).
    now apply Matches_anchored in H as (_ & _ & H).
  - intros H. eexists. split; [reflexivity|].
    exists 0, (length key). split; [lia|]. now apply Matches_anchored.
Qed.

Lemma matches_index_with_spec anchored f index :
  matches_index_with anchored f index = true <->
  count (pattern (m_re f)) SLASH = 1 /\
  exists key, key ∈ dom (index_data index) /\
              contains key (anchored (pattern (m_re f))) = true.
Proof.
  unfold matches_index_with.
  destruct (count (pattern (m_re f)) SLASH =? 1) eqn:Hc; cbn [negb].
  - apply Nat.eqb_eq in Hc. rewrite existsb_exists. split.
    + intros (key & Hin & Hk). split; [done|]. exists key. split; [|done].
      apply in_map_iff in Hin as ([k v] & <- & Hin).
      apply list_elem_of_In, elem_of_map_to_list in Hin.
      apply elem_of_dom. eauto.
    + intros (_ & key & Hin & Hk). exists key. split; [|done].
      apply elem_of_dom in Hin as [v Hv].
      apply in_map_iff. exists (key, v). split; [done|].
      now apply list_elem_of_In, elem_of_map_to_list.
  - apply Nat.eqb_neq in Hc. split; [done | intros [? _]; done].
Qed.

(** ** Matching the formats of an item *)



(** C10: the case option of the filter plays no part in matching the
    keys.  The expression for the keys is built from the pattern text
    alone, so the result is the same with and without the option,
    whatever the helper that anchors the pattern; with the anchored
    expression a key matches only as it is written, while [matches] on a
    text follows the option: the case-insensitive filter for "a/b"
    matches the text "A/B", matches data with the key "a/b" and does not
    match data whose only key is "A/B". *)
Theorem matches_index_ignores_case_option
    (anchored : QString -> QRegularExpression)
    (raw : QString) (useRegex : bool) (index : QModelIndex) :
  matches_index_with anchored (compile raw useRegex true) index
  = matches_index_with anchored (compile raw useRegex false) index /\
  (forall r, parse_pattern (pattern (m_re (compile raw useRegex true))) = Some r ->
     matches_index (compile raw useRegex true) index = true ->
     exists key, key ∈ dom (index_data index) /\
                 Matches false key r 0 (length key)) /\
  matches (compile (qs "a/b") false true) (qs "A/B") = true /\
  matches (compile (qs "a/b") false false) (qs "A/B") = false /\
  matches_index (compile (qs "a/b") false true) (fields_of [qs "a/b"]) = true /\
  matches_index (compile (qs "a/b") false true) (fields_of [qs "A/B"]) = false.
Proof.
  split; [reflexivity|].
  split; [|repeat split; vm_compute; reflexivity].
  intros r Hr Hm. apply matches_index_with_spec in Hm as (_ & key & Hin & Hk).
  exists key. split; [done|]. now apply (contains_anchoredRegExp key _ r Hr).
Qed.

(** ** Where a search can report a match *)

Lemma re_match_bounds re s offset idx e :
  offset <= length s ->
  re_match re s offset = Some (idx, e) ->
  offset <= idx /\ idx <= e /\ e <= length s /\
  exists r, compiled re = Some r /\ Matches (caseless re) s r idx e /\
            (forall t e', offset <= t < idx -> ~ Matches (caseless re) s r t e').
Proof.
  intros Ho. unfold re_match. destruct (compiled re) as [r|]; [|done].
  intros H. apply search_from_Some in H as (Hi & Hm & Hleft).
  pose proof (Matches_le _ _ _ _ _ Hm) as Hle.
  split; [lia|]. split; [done|]. split; [|eauto].
  destruct (decide (idx < e)); [eapply Matches_bound; eauto | lia].
Qed.

Lemma re_match_none re s offset r :
  compiled re = Some r ->
  re_match re s offset = None ->
  forall t e, offset <= t <= length s -> ~ Matches (caseless re) s r t e.
Proof.
  intros Hr. unfold re_match. rewrite Hr. intros H t e Ht.
  eapply search_from_None; [exact H | lia].
Qed.

Lemma block_table_spec s : forall blockPos cur,
  StronglySorted before (block_table s blockPos cur) /\
  Forall (fun e => blockPos <= fst e /\
                   fst e + length (snd e) <= blockPos + length cur + length s)
         (block_table s blockPos cur).
Proof.
  induction s as [|c s IH]; intros blockPos cur; cbn [block_table].
  - split; [repeat constructor|]. repeat constructor; simpl; lia.
  - destruct (Ascii.eqb c LF).
    + destruct (IH (blockPos + length cur + 1) []) as [Hs Hb]. split.
      * constructor; [done|]. eapply Forall_impl; [exact Hb|].
        intros e [He _]. unfold before. simpl. lia.
      * constructor; [simpl; lia|]. eapply Forall_impl; [exact Hb|].
        intros e [He1 He2]. simpl in *. lia.
    + destruct (IH blockPos (cur ++ [c])) as [Hs Hb]. split; [done|].
      eapply Forall_impl; [exact Hb|].
      intros e [He1 He2]. rewrite length_app in He2. simpl in *. lia.
Qed.

Lemma blocks_sorted doc : StronglySorted before (blocks doc).
Proof. apply block_table_spec. Qed.

Lemma blocks_bound doc :
  Forall (fun e => fst e + length (snd e) <= length doc) (blocks doc).
Proof.
  eapply Forall_impl; [apply (block_table_spec doc 0 [])|].
  intros e [_ He]. simpl in He. lia.
Qed.

Section SearchBounds.
Variable searchOption : PatternOption -> PatternOption.

Lemma length_block_text b : length (block_text b) = length b.
Proof. apply length_map. Qed.

Lemma findInBlock_forward_bounds b blockPos expr offset c :
  findInBlock b blockPos expr offset false = Some c ->
  blockPos + offset <= cur_anchor c /\ cur_anchor c <= cur_position c /\
  cur_position c <= blockPos + length b.
Proof.
  unfold findInBlock. rewrite length_block_text.
  destruct (offset <=? length b) eqn:Ho; [|done].
  apply Nat.leb_le in Ho. unfold indexOf.
  destruct (re_match expr (block_text b) offset) as [[idx e]|] eqn:Hm; [|done].
  apply re_match_bounds in Hm as (H1 & H2 & H3 & _);
    [|rewrite length_block_text; done].
  rewrite length_block_text in H3.
  intros [= <-]. simpl. lia.
Qed.

Lemma find_forward_bounds expr n table : forall pos c,
  Forall (fun e => fst e + length (snd e) <= n) table ->
  find_forward expr table pos = Some c ->
  pos <= cur_anchor c /\ cur_anchor c <= cur_position c /\ cur_position c <= n.
Proof.
  induction table as [|[blockPos b] rest IH]; intros pos c Hb; [done|].
  apply Forall_cons in Hb as [Hb Hrest]. cbn [find_forward]. simpl in Hb.
  destruct (blockPos + length b <? pos) eqn:Hskip; [now apply IH|].
  apply Nat.ltb_ge in Hskip.
  destruct (findInBlock b blockPos expr (pos - blockPos) false) as [c'|] eqn:Hf;
    [|now apply IH].
  intros [= <-]. apply findInBlock_forward_bounds in Hf. lia.
Qed.

Lemma find_forward_cursor_bounds doc re cur c :
  find searchOption doc re cur false = Some c ->
  (forall x, cur = Some x -> selectionEnd x <= cur_anchor c) /\
  cur_anchor c <= cur_position c /\ cur_position c <= length doc.
Proof.
  unfold find, find_from. destruct (isValid re); [|done].
  intros H. eapply find_forward_bounds in H; [|apply blocks_bound].
  split; [|lia]. intros x ->. lia.
Qed.

(** The loop of [highlight] ends: every round but the last leaves the
    cursor at a later position. *)
Lemma highlight_loop_terminates doc re : forall fuel cur a selections,
  (forall x, cur = Some x ->
     a = Z.of_nat (cur_position x) /\ cur_position x <= length doc) ->
  match cur with
  | None => 0
  | Some x => S (length doc - cur_position x)
  end < fuel ->
  exists result,
    highlight_loop searchOption fuel doc re cur a selections = Some result.
Proof.
  induction fuel as [|fuel IH]; intros cur a selections Hinv Hfuel; [lia|].
  cbn [highlight_loop]. destruct cur as [x|]; [|eauto].
  destruct (Hinv x eq_refl) as [-> Hx].
  set (cur1 := if hasSelection x then Some x
               else movePosition doc NextCharacter (Some x)).
  assert (Hcur1 : exists x1, cur1 = Some x1 /\ cur_position x <= selectionEnd x1).
  { unfold cur1. destruct (hasSelection x).
    - exists x. split; [done|]. unfold selectionEnd. lia.
    - cbn [movePosition]. eexists. split; [reflexivity|].
      unfold selectionEnd. simpl. destruct (cur_position x <? length doc); lia. }
  destruct Hcur1 as (x1 & Hx1 & Hx1pos). rewrite Hx1.
  destruct (find searchOption doc re (Some x1) false) as [y|] eqn:Hy.
  - apply find_forward_cursor_bounds in Hy as (Hfrom & Hy1 & Hy2).
    specialize (Hfrom x1 eq_refl). cbn [position].
    destruct (Z.of_nat (cur_position x) =? Z.of_nat (cur_position y))%Z eqn:Hab.
    + cbn [movePosition].
      set (y1 := {| cur_anchor := _; cur_position := _ |}).
      assert (Hy1pos : cur_position y <= selectionEnd y1).
      { unfold y1, selectionEnd. simpl.
        destruct (cur_position y <? length doc); lia. }
      destruct (find searchOption doc re (Some y1) false) as [z|] eqn:Hz.
      * apply find_forward_cursor_bounds in Hz as (Hfromz & Hz1 & Hz2).
        specialize (Hfromz y1 eq_refl). cbn [position].
        destruct (Z.of_nat (cur_position x) =? Z.of_nat (cur_position z))%Z
          eqn:Hab'; [eauto|].
        apply Z.eqb_eq in Hab. apply Z.eqb_neq in Hab'.
        apply IH; [intros ? [= <-]; done | lia].
      * cbn [position].
        assert (Hneq : (Z.of_nat (cur_position x) =? -1)%Z = false)
          by (apply Z.eqb_neq; lia).
        rewrite Hneq. apply IH; [done | lia].
    + apply Z.eqb_neq in Hab.
      apply IH; [intros ? [= <-]; done | lia].
  - cbn [position].
    assert (Hneq : (Z.of_nat (cur_position x) =? -1)%Z = false)
      by (apply Z.eqb_neq; lia).
    rewrite Hneq. apply IH; [done | lia].
Qed.

Lemma highlight_loop_more_fuel doc re : forall fuel cur a selections result,
  highlight_loop searchOption fuel doc re cur a selections = Some result ->
  highlight_loop searchOption (S fuel) doc re cur a selections = Some result.
Proof.
  induction fuel as [|fuel IH]; intros cur a selections result; [done|].
  intros H. cbn [highlight_loop] in H |- *.
  destruct cur as [x|]; [|done].
  repeat match type of H with
         | context [if ?b then _ else _] => destruct b
         end; try done; now apply IH.
Qed.

Lemma highlight_selections_terminates f doc :
  exists selections,
    forall fuel, length doc + 2 <= fuel ->
      highlight_selections searchOption fuel f doc = Some selections.
Proof.
  unfold highlight_selections.
  destruct (isValid (m_re f) && negb (isEmpty (pattern (m_re f)))); [|eauto].
  set (cur := find_from searchOption doc (m_re f) 0 false).
  assert (Hinv : forall x, cur = Some x ->
            position cur = Z.of_nat (cur_position x) /\ cur_position x <= length doc).
  { intros x Hx. rewrite Hx. split; [done|].
    change cur with (find searchOption doc (m_re f) None false) in Hx.
    apply find_forward_cursor_bounds in Hx. lia. }
  destruct (highlight_loop_terminates doc (m_re f) (length doc + 2) cur
              (position cur) [] Hinv) as [result Hres].
  { destruct cur; lia. }
  exists result. intros fuel Hfuel.
  replace fuel with ((fuel - (length doc + 2)) + (length doc + 2)) by lia.
  induction (fuel - (length doc + 2)) as [|k IHk]; [done|].
  now apply highlight_loop_more_fuel.
Qed.

End SearchBounds.

(** C5: [highlight] ends for every document and every filter.  A round
    of its loop whose search ends where the previous match ended moves
    the cursor one character on and searches again, and the loop stops
    when that search ends at the same position too; every other round
    leaves the cursor further on, so the rounds the document has
    positions for suffice, and more rounds change nothing.  For the
    expression [x*], which matches the empty text, the selections in
    "axxb" are the one occurrence of "xx". *)
Theorem highlight_terminates (searchOption : PatternOption -> PatternOption)
    (f : ItemFilterRegExp) (edit : QTextEdit) :
  (exists selections,
     highlight searchOption f edit = Some (setExtraSelections selections edit) /\
     forall fuel, length (document edit) + 2 <= fuel ->
       highlight_selections searchOption fuel f (document edit) = Some selections) /\
  highlight_selections caseInsensitiveSearch 6
    (compile (qs "x*") true false) (qs "axxb")
  = Some [{| cur_anchor := 1; cur_position := 3 |}].
Proof.
  split.
  - destruct (highlight_selections_terminates searchOption f (document edit))
      as [selections Hsel].
    exists selections. split; [|done].
    unfold highlight. now rewrite Hsel.
  - vm_compute. reflexivity.
Qed.

(** ** The matches [globalMatch] enumerates *)

Section GlobalMatch.
Variable re : QRegularExpression.
Variable w : QString.
Variable r : regex.
Hypothesis Hr : compiled re = Some r.

Lemma re_match_is_match offset m :
  re_match re w offset = Some m -> offset <= fst m /\ is_match re w r m.
Proof using Hr.
  destruct m as [idx e]. intros H.
  destruct (decide (offset <= length w)) as [Ho|Ho].
  - apply re_match_bounds in H as (H1 & H2 & H3 & r' & Hr' & Hm & _); [|done].
    rewrite Hr in Hr'. injection Hr' as <-. done.
  - unfold re_match in H. rewrite Hr in H.
    replace (S (length w) - offset) with 0 in H by lia. done.
Qed.

Lemma match_nonempty_at_is_match offset m :
  match_nonempty_at re w offset = Some m -> offset <= fst m /\ is_match re w r m.
Proof using Hr.
  unfold match_nonempty_at. rewrite Hr.
  destruct (List.find _ _) as [e|] eqn:Hf; [|done].
  intros [= <-]. apply find_some in Hf as [Hin Hne].
  apply ends_correct in Hin. apply negb_true_iff, Nat.eqb_neq in Hne.
  pose proof (Matches_le _ _ _ _ _ Hin).
  split; [simpl; lia|]. split; [done|]. split; [|done].
  simpl. eapply Matches_bound; [exact Hin | lia].
Qed.

Lemma nextMatch_is_match m m' :
  is_match re w r m -> nextMatch re w m = Some m' ->
  fst m <= fst m' /\ is_match re w r m'.
Proof using Hr.
  intros (Hle & _ & _). unfold nextMatch.
  destruct (fst m =? snd m).
  - destruct (match_nonempty_at re w (snd m)) as [m1|] eqn:Hn.
    + intros [= <-]. apply match_nonempty_at_is_match in Hn. split; [lia | tauto].
    + intros H. apply re_match_is_match in H. split; [lia | tauto].
  - intros H. apply re_match_is_match in H. split; [lia | tauto].
Qed.

Lemma iterate_matches_spec fuel : forall next lo,
  (forall m, next = Some m -> lo <= fst m /\ is_match re w r m) ->
  Forall (fun m => lo <= fst m /\ is_match re w r m) (iterate_matches re w fuel next) /\
  StronglySorted starts_le (iterate_matches re w fuel next).
Proof using Hr.
  induction fuel as [|fuel IH]; intros next lo Hnext; cbn [iterate_matches].
  - split; constructor.
  - destruct next as [m|]; [|split; constructor].
    destruct (Hnext m eq_refl) as [Hlo Hm].
    destruct (IH (nextMatch re w m) (fst m)) as [Hall Hsorted].
    { intros m' Hm'. now apply nextMatch_is_match. }
    split.
    + constructor; [done|]. eapply Forall_impl; [exact Hall|].
      intros m' [? ?]. split; [lia | done].
    + constructor; [done|]. eapply Forall_impl; [exact Hall|].
      intros m' [? _]. done.
Qed.

Lemma globalMatch_spec :
  Forall (is_match re w r) (globalMatch re w) /\
  StronglySorted starts_le (globalMatch re w).
Proof using Hr.
  destruct (iterate_matches_spec (2 * length w + 3) (re_match re w 0) 0)
    as [Hall Hsorted].
  { intros m Hm. now apply re_match_is_match. }
  split; [|done]. eapply Forall_impl; [exact Hall|]. now intros m [_ ?].
Qed.

Lemma nextMatch_progress m m' :
  is_match re w r m -> nextMatch re w m = Some m' -> progress m < progress m'.
Proof using Hr.
  intros (Hle & _ & _). unfold nextMatch, progress.
  destruct (fst m =? snd m) eqn:Hempty.
  - destruct (match_nonempty_at re w (snd m)) as [m1|] eqn:Hn.
    + intros [= <-]. unfold match_nonempty_at in Hn. rewrite Hr in Hn.
      destruct (List.find _ _) as [e|] eqn:Hf; [|done].
      injection Hn as <-. apply find_some in Hf as [Hin Hne].
      apply ends_correct, Matches_le in Hin.
      apply negb_true_iff, Nat.eqb_neq in Hne. cbn [fst snd].
      destruct (snd m =? e); lia.
    + intros H. apply re_match_is_match in H as (H1 & H2 & _).
      destruct (fst m' =? snd m'); lia.
  - intros H. apply re_match_is_match in H as (H1 & H2 & _).
    destruct (fst m' =? snd m') eqn:Hempty'; [lia|].
    apply Nat.eqb_neq in Hempty'. lia.
Qed.

Lemma iterate_matches_more_fuel fuel : forall next,
  (forall m, next = Some m -> is_match re w r m /\ 2 * length w + 2 - progress m <= fuel) ->
  iterate_matches re w (S fuel) next = iterate_matches re w fuel next.
Proof using Hr.
  induction fuel as [|fuel IH]; intros next Hnext.
  - destruct next as [m|]; [|done]. destruct (Hnext m eq_refl) as [(_ & Hm & _) Hp].
    unfold progress in Hp. destruct (fst m =? snd m); lia.
  - destruct next as [m|]; [|done]. destruct (Hnext m eq_refl) as [Hm Hp].
    change (iterate_matches re w (S (S fuel)) (Some m))
      with (m :: iterate_matches re w (S fuel) (nextMatch re w m)).
    change (iterate_matches re w (S fuel) (Some m))
      with (m :: iterate_matches re w fuel (nextMatch re w m)).
    f_equal. apply IH. intros m' Hm'.
    pose proof (nextMatch_progress m m' Hm Hm').
    apply nextMatch_is_match in Hm' as [_ Hm'is]; [|done]. split; [done | lia].
Qed.

Lemma globalMatch_complete extra :
  iterate_matches re w (2 * length w + 3 + extra) (re_match re w 0)
  = globalMatch re w.
Proof using Hr.
  unfold globalMatch. induction extra as [|extra IH]; [now rewrite Nat.add_0_r|].
  rewrite <- IH. replace (2 * length w + 3 + S extra)
    with (S (2 * length w + 3 + extra)) by lia.
  apply iterate_matches_more_fuel. intros m Hm.
  apply re_match_is_match in Hm as [_ Hm]. split; [done | lia].
Qed.

(** The enumeration starts with the leftmost match of the subject. *)
Lemma globalMatch_first t e :
  t <= length w -> Matches (caseless re) w r t e ->
  exists m ms, globalMatch re w = m :: ms /\ fst m <= t.
Proof using Hr.
  intros Ht Hm. unfold globalMatch.
  replace (2 * length w + 3) with (S (2 * length w + 2)) by lia.
  cbn [iterate_matches].
  destruct (re_match re w 0) as [[idx e0]|] eqn:Hre.
  - eexists _, _. split; [reflexivity|]. simpl.
    apply re_match_bounds in Hre as (_ & _ & _ & r' & Hr' & _ & Hleft); [|lia].
    rewrite Hr in Hr'. injection Hr' as <-.
    destruct (decide (idx <= t)); [done|].
    exfalso. apply (Hleft t e); [lia | done].
  - exfalso. eapply (re_match_none re w 0 r Hr Hre t e); [lia | done].
Qed.

(** What the last match of the iteration that starts before [endpos]
    leaves behind it: no match of the expression starts at its end or
    later and before [endpos]; where an empty match is the last one,
    none but empty matches start there. *)
Lemma last_starting_before_iterate endpos fuel : forall next lo found,
  (forall m, next = Some m ->
     is_match re w r m /\ 2 * length w + 2 - progress m <= fuel /\
     lo <= S (fst m) /\
     forall t e, lo <= t < fst m -> ~ Matches (caseless re) w r t e) ->
  (next = None ->
     forall t e, lo <= t <= length w -> ~ Matches (caseless re) w r t e) ->
  (forall t e, t < lo -> t <= length w -> Matches (caseless re) w r t e ->
     match found with Some c => t < snd c \/ t = fst c | None => False end) ->
  forall t e, t < endpos -> t <= length w -> Matches (caseless re) w r t e ->
    match last_starting_before endpos (iterate_matches re w fuel next) found with
    | Some c => t < snd c \/ t = fst c
    | None => False
    end.
Proof using Hr.
  induction fuel as [|fuel IH]; intros next lo found Hsome Hnone Hfound t e Ht Htw Hm.
  - destruct next as [m|].
    + destruct (Hsome m eq_refl) as ((_ & Hmw & _) & Hp & _).
      unfold progress in Hp. destruct (fst m =? snd m); lia.
    + cbn [iterate_matches last_starting_before].
      apply (Hfound t e); [|done|done].
      destruct (decide (t < lo)); [done|].
      exfalso. apply (Hnone eq_refl t e); [lia | done].
  - destruct next as [m|]; cbn [iterate_matches last_starting_before].
    2:{ apply (Hfound t e); [|done|done].
        destruct (decide (t < lo)); [done|].
        exfalso. apply (Hnone eq_refl t e); [lia | done]. }
    destruct (Hsome m eq_refl) as (Hism & Hp & Hlo & Hleft).
    destruct (fst m <? endpos) eqn:Hlt.
    + refine (IH (nextMatch re w m)
                (if fst m =? snd m then S (snd m) else snd m) (Some m)
                _ _ _ t e Ht Htw Hm).
      * intros m' Hm'.
        split; [now apply (nextMatch_is_match m m')|].
        split; [pose proof (nextMatch_progress m m' Hism Hm'); lia|].
        destruct Hism as (Hle & Hmw & _).
        unfold nextMatch in Hm'. destruct (fst m =? snd m) eqn:He.
        -- destruct (match_nonempty_at re w (snd m)) as [m1|] eqn:Hn.
           ++ injection Hm' as <-. unfold match_nonempty_at in Hn.
              rewrite Hr in Hn. destruct (List.find _ _); [|done].
              injection Hn as <-. cbn [fst]. split; [lia | intros; lia].
           ++ destruct m' as [s' e'].
              destruct (decide (S (snd m) <= length w)) as [Hin|Hout].
              ** apply re_match_bounds in Hm'
                   as (H1 & _ & _ & r' & Hr' & _ & Hleft'); [|done].
                 rewrite Hr in Hr'. injection Hr' as <-. cbn [fst].
                 split; [lia | exact Hleft'].
              ** unfold re_match in Hm'. rewrite Hr in Hm'.
                 replace (S (length w) - S (snd m)) with 0 in Hm' by lia. done.
        -- destruct m' as [s' e'].
           apply re_match_bounds in Hm'
             as (H1 & _ & _ & r' & Hr' & _ & Hleft'); [|done].
           rewrite Hr in Hr'. injection Hr' as <-. cbn [fst].
           split; [lia | exact Hleft'].
      * intros Hnext t' e' Ht' Hm'. unfold nextMatch in Hnext.
        destruct (fst m =? snd m).
        -- destruct (match_nonempty_at re w (snd m)); [done|].
           now apply (re_match_none re w _ r Hr Hnext t' e').
        -- now apply (re_match_none re w _ r Hr Hnext t' e').
      * intros t' e' Ht' Htw' Hm'. destruct Hism as (Hle & _ & _).
        destruct (fst m =? snd m) eqn:He.
        -- apply Nat.eqb_eq in He. lia.
        -- lia.
    + apply Nat.ltb_ge in Hlt. apply (Hfound t e); [|done|done].
      destruct (decide (t < lo)); [done|].
      exfalso. apply (Hleft t e); [lia | done].
Qed.

Lemma lastIndexOf_leaves_nothing endpos t e :
  t < endpos -> t <= length w -> Matches (caseless re) w r t e ->
  match last_starting_before endpos (globalMatch re w) None with
  | Some c => t < snd c \/ t = fst c
  | None => False
  end.
Proof using Hr.
  unfold globalMatch.
  intros Ht Htw Hm.
  refine (last_starting_before_iterate endpos _ (re_match re w 0) 0 None
            _ _ _ t e Ht Htw Hm).
  - intros [s' e'] Hm'. split; [now apply (re_match_is_match 0)|].
    apply re_match_bounds in Hm' as (_ & _ & _ & r' & Hr' & _ & Hleft'); [|lia].
    rewrite Hr in Hr'. injection Hr' as <-.
    split; [lia|]. split; [lia | exact Hleft'].
  - intros Hnext t' e' Ht'. now apply (re_match_none re w 0 r Hr Hnext).
  - intros; lia.
Qed.

End GlobalMatch.

Lemma last_starting_before_spec endpos ms : forall found,
  StronglySorted starts_le ms ->
  match last_starting_before endpos ms found with
  | Some m =>
      (m ∈ ms /\ fst m < endpos /\
       forall m', m' ∈ ms -> fst m' < endpos -> fst m' <= fst m) \/
      (found = Some m /\ forall m', m' ∈ ms -> endpos <= fst m')
  | None => found = None /\ forall m', m' ∈ ms -> endpos <= fst m'
  end.
Proof.
  induction ms as [|m ms IH]; intros found Hsorted; cbn [last_starting_before].
  - destruct found as [m|].
    + right. split; [done|]. intros m' Hm'. now apply elem_of_nil in Hm'.
    + split; [done|]. intros m' Hm'. now apply elem_of_nil in Hm'.
  - apply StronglySorted_inv in Hsorted as [Hsorted Hhead].
    rewrite Forall_forall in Hhead.
    destruct (fst m <? endpos) eqn:Hlt.
    + apply Nat.ltb_lt in Hlt. specialize (IH (Some m) Hsorted).
      destruct (last_starting_before endpos ms (Some m)) as [m2|];
        [|destruct IH as [? _]; done].
      left. destruct IH as [(Hin & Hm2 & Hlast)|([= <-] & Hall)].
      * split; [now apply elem_of_cons; right|]. split; [done|].
        intros m' Hm' Hm'lt. apply elem_of_cons in Hm' as [->|Hm'].
        -- now apply Hhead.
        -- now apply Hlast.
      * split; [now apply elem_of_cons; left|]. split; [done|].
        intros m' Hm' Hm'lt. apply elem_of_cons in Hm' as [->|Hm']; [done|].
        specialize (Hall m' Hm'). lia.
    + apply Nat.ltb_ge in Hlt.
      assert (Hall : forall m', m' ∈ m :: ms -> endpos <= fst m').
      { intros m' Hm'. apply elem_of_cons in Hm' as [->|Hm']; [done|].
        apply Hhead in Hm'. unfold starts_le in Hm'. lia. }
      destruct found as [m0|]; [right | ]; done.
Qed.

(** ** Searching a document *)

Lemma occurs_at_cons expr e table p q :
  occurs_at expr (e :: table) p q <->
  occurs_at expr [e] p q \/ occurs_at expr table p q.
Proof.
  unfold occurs_at. split.
  - intros (bp & b & r & Hin & H). apply elem_of_cons in Hin as [<-|Hin].
    + left. exists bp, b, r. split; [apply list_elem_of_singleton; done | done].
    + right. exists bp, b, r. done.
  - intros [(bp & b & r & Hin & H)|(bp & b & r & Hin & H)];
      exists bp, b, r; (split; [|done]).
    + apply list_elem_of_singleton in Hin as ->. apply elem_of_cons; now left.
    + apply elem_of_cons; now right.
Qed.

Lemma enumerated_cons expr e table p q :
  enumerated expr (e :: table) p q <->
  enumerated expr [e] p q \/ enumerated expr table p q.
Proof.
  unfold enumerated. split.
  - intros (bp & b & m & Hin & H). apply elem_of_cons in Hin as [<-|Hin].
    + left. exists bp, b, m. split; [apply list_elem_of_singleton; done | done].
    + right. exists bp, b, m. done.
  - intros [(bp & b & m & Hin & H)|(bp & b & m & Hin & H)];
      exists bp, b, m; (split; [|done]).
    + apply list_elem_of_singleton in Hin as ->. apply elem_of_cons; now left.
    + apply elem_of_cons; now right.
Qed.

Lemma occurs_at_nil expr p q : ~ occurs_at expr [] p q.
Proof. intros (bp & b & r & Hin & _). now apply elem_of_nil in Hin. Qed.

Lemma occurs_at_block expr blockPos b p q :
  occurs_at expr [(blockPos, b)] p q <->
  exists r, compiled expr = Some r /\
    blockPos <= p /\ p <= q /\ q <= blockPos + length b /\
    Matches (caseless expr) (block_text b) r (p - blockPos) (q - blockPos).
Proof.
  unfold occurs_at. split.
  - intros (bp & b' & r & Hin & H).
    apply list_elem_of_singleton in Hin. injection Hin as -> ->. eauto.
  - intros (r & H). exists blockPos, b, r.
    split; [apply list_elem_of_singleton; done | done].
Qed.

Lemma occurs_at_perm expr t1 t2 p q :
  (forall e, e ∈ t1 <-> e ∈ t2) ->
  occurs_at expr t1 p q <-> occurs_at expr t2 p q.
Proof.
  intros H. unfold occurs_at.
  split; intros (bp & b & r & Hin & Hrest); exists bp, b, r;
    (split; [now apply H | done]).
Qed.

Lemma enumerated_perm expr t1 t2 p q :
  (forall e, e ∈ t1 <-> e ∈ t2) ->
  enumerated expr t1 p q <-> enumerated expr t2 p q.
Proof.
  intros H. unfold enumerated.
  split; intros (bp & b & m & Hin & Hrest); exists bp, b, m;
    (split; [now apply H | done]).
Qed.

Section FindSpec.
Variable searchOption : PatternOption -> PatternOption.

Lemma findInBlock_forward_spec b blockPos expr offset :
  offset <= length b ->
  match findInBlock b blockPos expr offset false with
  | Some c =>
      occurs_at expr [(blockPos, b)] (cur_anchor c) (cur_position c) /\
      blockPos + offset <= cur_anchor c /\
      cur_position c <= blockPos + length b /\
      forall p q, blockPos + offset <= p < cur_anchor c ->
                  ~ occurs_at expr [(blockPos, b)] p q
  | None =>
      forall p q, blockPos + offset <= p -> ~ occurs_at expr [(blockPos, b)] p q
  end.
Proof.
  intros Ho. unfold findInBlock. rewrite length_block_text.
  apply Nat.leb_le in Ho as Ho'. rewrite Ho'. unfold indexOf.
  destruct (re_match expr (block_text b) offset) as [[idx e]|] eqn:Hm.
  - apply re_match_bounds in Hm
      as (H1 & H2 & H3 & r & Hr & Hmatch & Hleft);
      [|rewrite length_block_text; done].
    rewrite length_block_text in H3. cbn [cur_anchor cur_position].
    split; [|split; [lia|split; [lia|]]].
    + apply occurs_at_block. exists r. split; [done|].
      split; [lia|]. split; [lia|]. split; [lia|].
      replace (blockPos + idx - blockPos) with idx by lia.
      replace (blockPos + idx + (e - idx) - blockPos) with e by lia. done.
    + intros p q Hp Hocc. apply occurs_at_block in Hocc
        as (r' & Hr' & Hp1 & Hp2 & Hp3 & Hocc).
      rewrite Hr in Hr'. injection Hr' as <-.
      apply (Hleft (p - blockPos) (q - blockPos)); [lia | done].
  - intros p q Hp Hocc. apply occurs_at_block in Hocc
      as (r & Hr & Hp1 & Hp2 & Hp3 & Hocc).
    apply (re_match_none expr (block_text b) offset r Hr Hm
             (p - blockPos) (q - blockPos)); [|done].
    rewrite length_block_text. lia.
Qed.

Lemma find_forward_spec expr table : forall pos,
  StronglySorted before table ->
  match find_forward expr table pos with
  | Some c => next_occurrence expr table pos c
  | None => forall p q, pos <= p -> ~ occurs_at expr table p q
  end.
Proof.
  unfold next_occurrence.
  induction table as [|[blockPos b] rest IH]; intros pos Hsorted.
  - intros p q _. apply occurs_at_nil.
  - apply StronglySorted_inv in Hsorted as [Hsorted Hhead].
    rewrite Forall_forall in Hhead. cbn [find_forward].
    assert (Hlater : forall p q, occurs_at expr rest p q ->
              blockPos + length b < p).
    { intros p q (bp & b' & r & Hin & _ & Hp & _).
      apply Hhead in Hin. unfold before in Hin. simpl in Hin. lia. }
    destruct (blockPos + length b <? pos) eqn:Hskip.
    + apply Nat.ltb_lt in Hskip. specialize (IH pos Hsorted).
      assert (Hhere : forall p q, pos <= p ->
                ~ occurs_at expr [(blockPos, b)] p q).
      { intros p q Hp Hocc. apply occurs_at_block in Hocc
          as (r & _ & ? & ? & ? & _). lia. }
      destruct (find_forward expr rest pos) as [c|].
      * destruct IH as (Hocc & Hfrom & Hleft).
        split; [apply occurs_at_cons; now right|]. split; [done|].
        intros p q Hp Hpq. apply occurs_at_cons in Hpq as [Hpq|Hpq].
        -- apply (Hhere p q); [lia | done].
        -- now apply (Hleft p q).
      * intros p q Hp Hpq. apply occurs_at_cons in Hpq as [Hpq|Hpq].
        -- now apply (Hhere p q).
        -- now apply (IH p q).
    + apply Nat.ltb_ge in Hskip.
      pose proof (findInBlock_forward_spec b blockPos expr (pos - blockPos)
                    ltac:(lia)) as Hblock.
      destruct (findInBlock b blockPos expr (pos - blockPos) false) as [c|].
      * destruct Hblock as (Hocc & Hfrom & Hend & Hleft).
        split; [apply occurs_at_cons; now left|]. split; [lia|].
        intros p q Hp Hpq. apply occurs_at_cons in Hpq as [Hpq|Hpq].
        -- pose proof (proj1 (occurs_at_block _ _ _ _ _) Hpq)
             as (? & _ & ? & _).
           apply (Hleft p q); [lia | done].
        -- apply Hlater in Hpq.
           apply occurs_at_block in Hocc as (_ & _ & _ & ? & ? & _). lia.
      * specialize (IH pos Hsorted).
        destruct (find_forward expr rest pos) as [c|].
        -- destruct IH as (Hocc & Hfrom & Hleft).
           split; [apply occurs_at_cons; now right|]. split; [done|].
           intros p q Hp Hpq. apply occurs_at_cons in Hpq as [Hpq|Hpq].
           ++ pose proof (proj1 (occurs_at_block _ _ _ _ _) Hpq)
                as (? & _ & ? & _).
              apply (Hblock p q); [lia | done].
           ++ now apply (Hleft p q).
        -- intros p q Hp Hpq. apply occurs_at_cons in Hpq as [Hpq|Hpq].
           ++ pose proof (proj1 (occurs_at_block _ _ _ _ _) Hpq)
                as (? & _ & ? & _).
              apply (Hblock p q); [lia | done].
           ++ now apply (IH p q).
Qed.

End FindSpec.

Lemma StronglySorted_rev {A} (R : A -> A -> Prop) (l : list A) :
  StronglySorted R l -> StronglySorted (flip R) (rev l).
Proof.
  induction 1 as [|x l Hl IH Hx]; cbn [rev]; [constructor|].
  apply StronglySorted_app. split; [|split; [done | repeat constructor]].
  intros x1 x2 Hx1 Hx2. apply list_elem_of_singleton in Hx2 as ->.
  apply list_elem_of_In, in_rev, list_elem_of_In in Hx1.
  rewrite Forall_forall in Hx. unfold flip. now apply Hx.
Qed.

Lemma elem_of_rev {A} (l : list A) x : x ∈ rev l <-> x ∈ l.
Proof. rewrite !list_elem_of_In. symmetry. apply in_rev. Qed.

Section FindBackwardSpec.
Variable expr : QRegularExpression.
Variable r : regex.
Hypothesis Hr : compiled expr = Some r.

Lemma enumerated_occurs table p q :
  enumerated expr table p q -> occurs_at expr table p q.
Proof using Hr.
  intros (bp & b & m & Hin & Hm & -> & ->).
  destruct (globalMatch_spec expr (block_text b) r Hr) as [Hall _].
  rewrite Forall_forall in Hall. destruct (Hall m Hm) as (H1 & H2 & H3).
  rewrite length_block_text in H2.
  exists bp, b, r. split; [done|]. split; [done|].
  split; [lia|]. split; [lia|]. split; [lia|].
  replace (bp + fst m - bp) with (fst m) by lia.
  replace (bp + snd m - bp) with (snd m) by lia. done.
Qed.

Lemma findInBlock_backward_spec b blockPos offset :
  offset <= length b ->
  match findInBlock b blockPos expr offset true with
  | Some c =>
      occurs_at expr [(blockPos, b)] (cur_anchor c) (cur_position c) /\
      enumerated expr [(blockPos, b)] (cur_anchor c) (cur_position c) /\
      blockPos <= cur_anchor c <= blockPos + offset /\
      (forall p q, enumerated expr [(blockPos, b)] p q ->
                   p <= blockPos + offset -> p <= cur_anchor c) /\
      (forall p q, occurs_at expr [(blockPos, b)] p q ->
                   p <= blockPos + offset ->
                   p < cur_position c \/ p = cur_anchor c)
  | None =>
      forall p q, p <= blockPos + offset -> ~ occurs_at expr [(blockPos, b)] p q
  end.
Proof using Hr.
  intros Ho. unfold findInBlock. rewrite length_block_text.
  apply Nat.leb_le in Ho as Ho'. rewrite Ho'. unfold lastIndexOf, isValid.
  rewrite Hr.
  destruct (globalMatch_spec expr (block_text b) r Hr) as [Hall Hsorted].
  rewrite Forall_forall in Hall.
  pose proof (last_starting_before_spec (offset + 1)
                (globalMatch expr (block_text b)) None Hsorted) as Hlast.
  pose proof (lastIndexOf_leaves_nothing expr (block_text b) r Hr (offset + 1))
    as Hbehind.
  destruct (last_starting_before (offset + 1) (globalMatch expr (block_text b)) None)
    as [[idx e]|].
  - destruct Hlast as [(Hin & Hlt & Hlatest)|[? _]]; [|done].
    destruct (Hall _ Hin) as (H1 & H2 & H3). simpl in H1, H2, H3, Hlt.
    cbn [cur_anchor cur_position].
    assert (Henum : enumerated expr [(blockPos, b)] (blockPos + idx)
                      (blockPos + idx + (e - idx))).
    { exists blockPos, b, (idx, e).
      split; [apply list_elem_of_singleton; done|]. split; [done|].
      simpl. lia. }
    split; [now apply enumerated_occurs|]. split; [done|]. split; [lia|].
    split.
    + intros p q (bp & b' & m & Hb & Hm & -> & _) Hp.
      apply list_elem_of_singleton in Hb. injection Hb as -> ->.
      specialize (Hlatest m Hm). simpl in Hlatest. lia.
    + intros p q Hocc Hp. apply occurs_at_block in Hocc
        as (r' & Hr' & Hp1 & Hp2 & Hp3 & Hocc).
      rewrite Hr in Hr'. injection Hr' as <-.
      specialize (Hbehind (p - blockPos) (q - blockPos)).
      rewrite length_block_text in Hbehind. cbn [fst snd] in Hbehind.
      destruct Hbehind as [Hb|Hb]; [lia | lia | done | lia | lia].
  - destruct Hlast as [_ Hnone].
    intros p q Hp Hocc. apply occurs_at_block in Hocc
      as (r' & Hr' & Hp1 & Hp2 & Hp3 & Hocc).
    rewrite Hr in Hr'. injection Hr' as <-.
    destruct (globalMatch_first expr (block_text b) r Hr
                (p - blockPos) (q - blockPos))
      as (m & ms & Hgm & Hm); [rewrite length_block_text; lia | done |].
    specialize (Hnone m). rewrite Hgm in Hnone.
    specialize (Hnone ltac:(apply elem_of_cons; now left)). lia.
Qed.

Lemma find_backward_spec rtable : forall pos,
  StronglySorted (flip before) rtable ->
  match find_backward expr rtable pos with
  | Some c => previous_occurrence expr rtable (S pos) c
  | None => forall p q, p <= pos -> ~ occurs_at expr rtable p q
  end.
Proof using Hr.
  unfold previous_occurrence.
  induction rtable as [|[blockPos b] rest IH]; intros pos Hsorted.
  - intros p q _. apply occurs_at_nil.
  - apply StronglySorted_inv in Hsorted as [Hsorted Hhead].
    rewrite Forall_forall in Hhead. cbn [find_backward].
    assert (Hearlier : forall p q, occurs_at expr rest p q -> p < blockPos).
    { intros p q (bp & b' & r' & Hin & _ & _ & ? & ? & _).
      apply Hhead in Hin. unfold flip, before in Hin. simpl in Hin. lia. }
    destruct (pos <? blockPos) eqn:Hskip.
    + apply Nat.ltb_lt in Hskip. specialize (IH pos Hsorted).
      assert (Hhere : forall p q, p <= pos ->
                ~ occurs_at expr [(blockPos, b)] p q).
      { intros p q Hp Hocc. apply occurs_at_block in Hocc
          as (? & _ & ? & _). lia. }
      destruct (find_backward expr rest pos) as [c|].
      * destruct IH as (Hocc & Henum & Hfrom & Hlatest & Hbehind).
        split; [apply occurs_at_cons; now right|].
        split; [apply enumerated_cons; now right|]. split; [done|].
        split.
        -- intros p q Hpq Hp. apply enumerated_cons in Hpq as [Hpq|Hpq].
           ++ exfalso. apply (Hhere p q); [lia | now apply enumerated_occurs].
           ++ now apply (Hlatest p q).
        -- intros p q Hpq Hp. apply occurs_at_cons in Hpq as [Hpq|Hpq].
           ++ exfalso. apply (Hhere p q); [lia | done].
           ++ now apply (Hbehind p q).
      * intros p q Hp Hpq. apply occurs_at_cons in Hpq as [Hpq|Hpq].
        -- now apply (Hhere p q).
        -- now apply (IH p q).
    + apply Nat.ltb_ge in Hskip.
      set (offset := Nat.min (pos - blockPos) (length b)).
      pose proof (findInBlock_backward_spec b blockPos offset ltac:(unfold offset; lia))
        as Hblock.
      assert (Hoff : forall p q, occurs_at expr [(blockPos, b)] p q ->
                p <= pos -> p <= blockPos + offset).
      { intros p q Hocc Hp. apply occurs_at_block in Hocc
          as (? & _ & ? & ? & ? & _). unfold offset. lia. }
      destruct (findInBlock b blockPos expr offset true) as [c|].
      * destruct Hblock as (Hocc & Henum & Hfrom & Hlatest & Hbehind).
        split; [apply occurs_at_cons; now left|].
        split; [apply enumerated_cons; now left|].
        split; [unfold offset in Hfrom; lia|].
        split.
        -- intros p q Hpq Hp. apply enumerated_cons in Hpq as [Hpq|Hpq].
           ++ apply (Hlatest p q); [done|].
              apply (Hoff p q); [now apply enumerated_occurs | lia].
           ++ apply enumerated_occurs, Hearlier in Hpq. lia.
        -- intros p q Hpq Hp. apply occurs_at_cons in Hpq as [Hpq|Hpq].
           ++ apply (Hbehind p q); [done|]. apply (Hoff p q); [done | lia].
           ++ apply Hearlier in Hpq.
              apply occurs_at_block in Hocc as (? & _ & ? & ? & _). lia.
      * specialize (IH pos Hsorted).
        destruct (find_backward expr rest pos) as [c|].
        -- destruct IH as (Hocc & Henum & Hfrom & Hlatest & Hbehind).
           split; [apply occurs_at_cons; now right|].
           split; [apply enumerated_cons; now right|]. split; [done|].
           split.
           ++ intros p q Hpq Hp. apply enumerated_cons in Hpq as [Hpq|Hpq].
              ** exfalso. apply enumerated_occurs in Hpq.
                 apply (Hblock p q); [|done]. apply (Hoff p q); [done | lia].
              ** now apply (Hlatest p q).
           ++ intros p q Hpq Hp. apply occurs_at_cons in Hpq as [Hpq|Hpq].
              ** exfalso. apply (Hblock p q); [|done].
                 apply (Hoff p q); [done | lia].
              ** now apply (Hbehind p q).
        -- intros p q Hp Hpq. apply occurs_at_cons in Hpq as [Hpq|Hpq].
           ++ apply (Hblock p q); [|done]. now apply (Hoff p q).
           ++ now apply (IH p q).
Qed.

End FindBackwardSpec.

Section SearchSpec.
Variable searchOption : PatternOption -> PatternOption.

Lemma find_from_spec doc re from backwards :
  match find_from searchOption doc re from backwards with
  | Some c => reached (search_expression searchOption re) doc backwards from c
  | None => none_from (search_expression searchOption re) doc backwards from
  end.
Proof.
  unfold find_from, reached, none_from, isValid.
  destruct (compiled re) as [r|] eqn:Hr.
  - destruct backwards.
    + destruct from as [|pos]; [intros; lia|].
      pose proof (find_backward_spec (search_expression searchOption re) r Hr
                    (rev (blocks doc)) pos
                    (StronglySorted_rev _ _ (blocks_sorted doc))) as H.
      destruct (find_backward _ _ pos) as [c|].
      * destruct H as (Hocc & Henum & Hfrom & Hlatest & Hbehind).
        split; [|split; [|split; [done|split]]].
        -- eapply occurs_at_perm; [|exact Hocc]. intros e. symmetry. apply elem_of_rev.
        -- eapply enumerated_perm; [|exact Henum]. intros e. symmetry. apply elem_of_rev.
        -- intros p q Hpq Hp. apply (Hlatest p q); [|done].
           eapply enumerated_perm; [|exact Hpq]. intros e. apply elem_of_rev.
        -- intros p q Hpq Hp. apply (Hbehind p q); [|done].
           eapply occurs_at_perm; [|exact Hpq]. intros e. apply elem_of_rev.
      * intros p q Hp Hocc. apply (H p q); [lia|].
        eapply occurs_at_perm; [|exact Hocc]. intros e. apply elem_of_rev.
    + apply find_forward_spec, blocks_sorted.
  - intros p q _ (bp & b & r & _ & Hr' & _).
    change (compiled (search_expression searchOption re)) with (compiled re) in Hr'.
    congruence.
Qed.


End SearchSpec.


(** ** The search timer *)

Lemma last_cons {A} (l : list A) : forall x d,
  List.last (x :: l) d = List.last l x.
Proof.
  induction l as [|y l IH]; intros x d; [reflexivity|].
  change (List.last (x :: y :: l) d) with (List.last (y :: l) d).
  now rewrite !IH.
Qed.

Lemma run_edits times : forall t w,
  hasFocus w = true ->
  (forall d, m_timerSearch w = Some d -> t < d) ->
  rapid t times ->
  run w (map (fun t' => (t', TextChanged)) (t :: times))
  = ({| hasFocus := true; m_timerSearch := Some (List.last times t + interval) |}, []).
Proof.
  induction times as [|t' times IH]; intros t w Hfocus Htimer Hrapid.
  - cbn [map run]. unfold expire.
    destruct (m_timerSearch w) as [d|] eqn:Hd.
    + specialize (Htimer d eq_refl).
      assert (Hle : (d <=? t) = false) by (apply Nat.leb_gt; lia).
      rewrite Hle. cbn [deliver]. unfold onTextChanged. rewrite Hfocus. reflexivity.
    + cbn [deliver]. unfold onTextChanged. rewrite Hfocus. reflexivity.
  - destruct Hrapid as (Hle & Hlt & Hrapid).
    change (map (fun t' => (t', TextChanged)) (t :: t' :: times))
      with ((t, TextChanged) :: map (fun t' => (t', TextChanged)) (t' :: times)).
    cbn [run].
    assert (Hfirst : exists w1,
              (let '(w1, e1) := expire t w in
               let '(w2, e2) := deliver t TextChanged w1 in (w2, e1 ++ e2))
              = (w1, []) /\ hasFocus w1 = true /\
              m_timerSearch w1 = Some (t + interval)).
    { unfold expire. destruct (m_timerSearch w) as [d|] eqn:Hd.
      - specialize (Htimer d eq_refl).
        assert (Hle' : (d <=? t) = false) by (apply Nat.leb_gt; lia).
        rewrite Hle'. cbn [deliver]. unfold onTextChanged. rewrite Hfocus.
        eexists. split; [reflexivity|]. done.
      - cbn [deliver]. unfold onTextChanged. rewrite Hfocus.
        eexists. split; [reflexivity|]. done. }
    destruct Hfirst as (w1 & Hw1 & Hf1 & Ht1).
    destruct (expire t w) as [wa ea]. destruct (deliver t TextChanged wa) as [wb eb].
    injection Hw1 as -> Hnil. apply app_eq_nil in Hnil as [-> ->].
    rewrite (IH t' w1 Hf1); [|intros d; rewrite Ht1; intros [= <-]; lia | done].
    now rewrite last_cons.
Qed.

(** C7: with the interval of 200 units, edits made while the line edit
    has the focus restart the single-shot timer, so that edits that
    follow one another within the interval give one [filterChanged], one
    interval after the last edit; losing the focus while the timer runs
    stops the timer and emits [filterChanged] at once, and nothing is
    emitted later; an edit while the line edit does not have the focus
    emits at once.  Edits at 0, 50 and 100 give one emission at 300; with
    the focus lost at 120 they give one emission at 120. *)
Theorem filter_changed_is_debounced :
  (forall w t times horizon,
     hasFocus w = true -> m_timerSearch w = None -> rapid t times ->
     List.last times t + interval <= horizon ->
     run_until horizon w (map (fun t' => (t', TextChanged)) (t :: times))
     = ({| hasFocus := true; m_timerSearch := None |},
        [List.last times t + interval])) /\
  (forall w t d horizon,
     m_timerSearch w = Some d -> t < d ->
     run_until horizon w [(t, FocusOut)]
     = ({| hasFocus := false; m_timerSearch := None |}, [t])) /\
  (forall w t horizon,
     hasFocus w = false -> m_timerSearch w = None ->
     run_until horizon w [(t, TextChanged)] = (w, [t])) /\
  snd (run_until 1000 focused_idle
         [(0, TextChanged); (50, TextChanged); (100, TextChanged)]) = [300] /\
  snd (run_until 1000 focused_idle
         [(0, TextChanged); (50, TextChanged); (100, TextChanged); (120, FocusOut)])
  = [120].
Proof.
  split; [|split; [|split; [|split; reflexivity]]].
  - intros w t times horizon Hfocus Htimer Hrapid Hhorizon.
    unfold run_until. rewrite run_edits; [|done|rewrite Htimer; done|done].
    unfold expire. cbn [m_timerSearch hasFocus].
    apply Nat.leb_le in Hhorizon. now rewrite Hhorizon.
  - intros w t d horizon Htimer Hlt. unfold run_until. cbn [run].
    unfold expire at 1. rewrite Htimer.
    assert (Hle : (d <=? t) = false) by (apply Nat.leb_gt; lia).
    rewrite Hle. cbn [deliver]. unfold focusOutEvent. cbn [m_timerSearch].
    rewrite Htimer. reflexivity.
  - intros w t horizon Hfocus Htimer. unfold run_until. cbn [run].
    unfold expire. rewrite Htimer. cbn [deliver]. unfold onTextChanged.
    rewrite Hfocus, Htimer. reflexivity.
Qed.

(** ** The filter history *)

Lemma filter_filter_andb {A} (P Q : A -> bool) (l : list A) :
  List.filter P (List.filter Q l) = List.filter (fun x => Q x && P x) l.
Proof.
  induction l as [|x l IH]; [done|]. cbn [List.filter].
  destruct (Q x); cbn [List.filter andb]; [|done].
  destruct (P x); now rewrite IH.
Qed.

Lemma removeDuplicates_from_spec l : forall seen,
  removeDuplicates_from seen l
  = List.filter (fun s => negb (bool_decide (s ∈ seen))) (first_occurrences l).
Proof.
  induction l as [|s l IH]; intros seen; [done|].
  cbn [removeDuplicates_from first_occurrences List.filter].
  rewrite filter_filter_andb. destruct (decide (s ∈ seen)) as [Hin|Hin].
  - rewrite (bool_decide_eq_true_2 _ Hin). cbn [negb]. rewrite IH.
    apply filter_ext. intros x.
    destruct (bool_decide (x ∈ seen)) eqn:Hx; cbn [negb]; [now rewrite andb_false_r|].
    rewrite andb_true_r. apply bool_decide_eq_false in Hx.
    rewrite bool_decide_eq_false_2; [done | congruence].
  - rewrite (bool_decide_eq_false_2 _ Hin). cbn [negb]. f_equal. rewrite IH.
    apply filter_ext. intros x.
    destruct (decide (x = s)) as [->|Hne].
    + rewrite (bool_decide_eq_true_2 (s ∈ {[s]} ∪ seen)) by set_solver.
      now rewrite (bool_decide_eq_true_2 (s = s)).
    + rewrite (bool_decide_eq_false_2 (x = s)) by done. cbn [negb andb].
      f_equal. apply bool_decide_ext.
      rewrite elem_of_union, elem_of_singleton. tauto.
Qed.

Lemma removeDuplicates_first_occurrences l :
  removeDuplicates l = first_occurrences l.
Proof.
  unfold removeDuplicates. rewrite removeDuplicates_from_spec.
  induction (first_occurrences l) as [|x l' IH]; [done|].
  cbn [List.filter]. rewrite bool_decide_eq_false_2 by set_solver.
  cbn [negb]. now rewrite IH.
Qed.

Lemma first_occurrences_elem l s : In s (first_occurrences l) <-> In s l.
Proof.
  induction l as [|x l IH]; [done|]. cbn [first_occurrences In].
  rewrite filter_In, IH. destruct (decide (s = x)) as [->|Hne]; [tauto|].
  rewrite bool_decide_eq_false_2 by done. cbn [negb].
  split; [tauto|]. intros [?|?]; [now left | right; done].
Qed.

Lemma first_occurrences_NoDup l : List.NoDup (first_occurrences l).
Proof.
  induction l as [|x l IH]; cbn [first_occurrences]; constructor.
  - rewrite filter_In. intros [_ H].
    rewrite bool_decide_eq_true_2 in H by done. done.
  - now apply List.NoDup_filter.
Qed.

Lemma value_removed name st :
  AppConfig_option name (AppConfig_removeOption name st) = QVInvalid.
Proof.
  unfold AppConfig_option, AppConfig_removeOption, value. cbn [appConfig].
  now rewrite lookup_delete_eq.
Qed.

Lemma history_setHistory l st : history (setHistory l st) = l.
Proof.
  unfold history, setHistory, value. cbn [m_settings].
  now rewrite lookup_insert_eq.
Qed.

(** C8, as the code has it: the migration does nothing when the old key
    is not set, and nothing when the value read for it is not valid,
    which is what an empty list is read as once it was written to the
    settings file: then the old key stays.  When the value is valid the
    old key is deleted, whether its list is empty or not, and when the
    list is not empty the history is set to the strings of the current
    history followed by those of the old one, each string kept where it
    occurs first; running the migration again changes nothing.  With
    the old history x, y and the current history y, z the history
    becomes y, z, x. *)
Theorem restoreOldFilterHistory_migrates (st : Stores) :
  (appConfig st !! optionFilterHistory = None -> restoreOldFilterHistory st = st) /\
  (forall v,
     appConfig st !! optionFilterHistory = Some v -> QVariant_isValid v = true ->
     appConfig (restoreOldFilterHistory st)
     = delete optionFilterHistory (appConfig st) /\
     (toStringList v <> [] ->
      m_settings (restoreOldFilterHistory st)
      = <[optionFilterHistory :=
            QVStringList (removeDuplicates (history st ++ toStringList v))]>
          (m_settings st) /\
      history (restoreOldFilterHistory st)
      = removeDuplicates (history st ++ toStringList v)) /\
     (toStringList v = [] ->
      m_settings (restoreOldFilterHistory st) = m_settings st)) /\
  (forall v,
     appConfig st !! optionFilterHistory = Some v -> QVariant_isValid v = false ->
     restoreOldFilterHistory st = st) /\
  restoreOldFilterHistory (restoreOldFilterHistory st) = restoreOldFilterHistory st /\
  (forall l, removeDuplicates l = first_occurrences l /\
             List.NoDup (removeDuplicates l) /\
             forall s, In s (removeDuplicates l) <-> In s l) /\
  history (restoreOldFilterHistory legacy_example) = [qs "y"; qs "z"; qs "x"] /\
  appConfig (restoreOldFilterHistory legacy_example) !! optionFilterHistory = None /\
  restoreOldFilterHistory empty_legacy_example = empty_legacy_example /\
  appConfig (restoreOldFilterHistory empty_legacy_example) !! optionFilterHistory
  = Some QVInvalid.
Proof.
  split; [|split; [|split; [|split; [|split; [|split; [|split; [|split]]]]]]].
  - intros Hnone. unfold restoreOldFilterHistory, AppConfig_option, value.
    now rewrite Hnone.
  - intros v Hv Hvalid. unfold restoreOldFilterHistory, AppConfig_option, value.
    rewrite Hv. cbn [default from_option id]. rewrite Hvalid.
    destruct (toStringList v) as [|s l] eqn:Hl; cbn [isEmpty negb].
    + split; [done|]. split; [done | done].
    + split; [done|]. split; [|done]. intros _. split; [done|].
      unfold AppConfig_removeOption, history. cbn [m_settings].
      apply history_setHistory.
  - intros v Hv Hinvalid. unfold restoreOldFilterHistory, AppConfig_option, value.
    rewrite Hv. cbn [default from_option id]. now rewrite Hinvalid.
  - assert (Hnoop : forall st', restoreOldFilterHistory
                        (AppConfig_removeOption optionFilterHistory st')
                      = AppConfig_removeOption optionFilterHistory st').
    { intros st'. unfold restoreOldFilterHistory. now rewrite value_removed. }
    assert (Hcases : (exists st', restoreOldFilterHistory st
                        = AppConfig_removeOption optionFilterHistory st') \/
                     (restoreOldFilterHistory st = st /\
                      QVariant_isValid (AppConfig_option optionFilterHistory st)
                      = false)).
    { unfold restoreOldFilterHistory at 1 2.
      destruct (QVariant_isValid (AppConfig_option optionFilterHistory st));
        [left; eauto | right; done]. }
    destruct Hcases as [[st' ->]|[Hst Hinvalid]]; [apply Hnoop|].
    rewrite Hst. unfold restoreOldFilterHistory. now rewrite Hinvalid.
  - intros l. split; [apply removeDuplicates_first_occurrences|].
    rewrite removeDuplicates_first_occurrences.
    split; [apply first_occurrences_NoDup|]. intros s. apply first_occurrences_elem.
  - vm_compute. reflexivity.
  - vm_compute. reflexivity.
  - reflexivity.
  - reflexivity.
Qed.

(** * Further properties *)

(** ** The three kinds of filter *)

Lemma compiled_empty_pattern re :
  pattern re = [] -> compiled re = Some Eps.
Proof. unfold compiled. now intros ->. Qed.

(** X1: no filter both matches all and matches none: the empty pattern
    is a valid expression. *)
Theorem matchesAll_and_matchesNone_exclusive (f : ItemFilterRegExp) :
  matchesAll f && matchesNone f = false.
Proof.
  unfold matchesAll, matchesNone, isValid.
  destruct (pattern (m_re f)) as [|c p] eqn:Hp; [|reflexivity].
  now rewrite (compiled_empty_pattern _ Hp).
Qed.

(** X2: a filter that matches all matches every text, the empty text
    too, matches no item data by its formats and gives no selection to
    highlight. *)
Theorem matchesAll_matches_every_text (searchOption : PatternOption -> PatternOption)
    (f : ItemFilterRegExp) (txt : QString) (index : QModelIndex) (edit : QTextEdit) :
  matchesAll f = true ->
  matches f txt = true /\ matches_index f index = false /\
  highlight searchOption f edit = Some (setExtraSelections [] edit).
Proof.
  unfold matchesAll. intros Hall.
  destruct (pattern (m_re f)) as [|c p] eqn:Hp; [|discriminate Hall].
  split; [|split].
  - unfold matches, contains, re_match.
    rewrite (compiled_empty_pattern _ Hp). reflexivity.
  - unfold matches_index, matches_index_with. now rewrite Hp.
  - unfold highlight, highlight_selections. rewrite Hp. cbn [isEmpty negb].
    now rewrite andb_false_r.
Qed.

Lemma find_from_invalid searchOption doc re from backward :
  isValid re = false -> find_from searchOption doc re from backward = None.
Proof. unfold find_from. now intros ->. Qed.

(** X3: a filter whose expression is not valid matches no text, gives
    no selection to highlight and leaves the cursor of the editor where
    it is, forwards and backwards. *)
Theorem matchesNone_finds_nothing (searchOption : PatternOption -> PatternOption)
    (f : ItemFilterRegExp) (txt : QString) (edit : QTextEdit) (backwards : bool) :
  matchesNone f = true ->
  matches f txt = false /\
  highlight searchOption f edit = Some (setExtraSelections [] edit) /\
  search searchOption f edit backwards = edit.
Proof.
  unfold matchesNone. rewrite negb_true_iff. intros Hinvalid.
  split; [|split].
  - unfold matches, contains, re_match. unfold isValid in Hinvalid.
    now destruct (compiled (m_re f)).
  - unfold highlight, highlight_selections. now rewrite Hinvalid.
  - unfold search. destruct (matchesAll f); [done|].
    destruct (textCursor edit) as [tc|]; [|done]. cbn [isNull].
    unfold find. rewrite !find_from_invalid by done. reflexivity.
Qed.

(** ** The case option *)












Lemma compiled_parsed re r :
  parse_pattern (pattern re) = Some r -> compiled re = Some r.
Proof. unfold compiled. now intros ->. Qed.


(** ** White space around the filter text, and text around a match *)

Lemma tokenize_spaces_only ws : forall acc,
  forallb is_space ws = true ->
  tokenize ws acc = if isEmpty acc then [] else [acc].
Proof.
  induction ws as [|c ws IH]; intros acc; cbn [tokenize forallb]; [done|].
  intros [Hc Hws]%andb_prop. rewrite Hc, (IH [] Hws).
  now destruct acc.
Qed.

Lemma tokenize_leading_spaces ws s :
  forallb is_space ws = true -> tokenize (ws ++ s) [] = tokenize s [].
Proof.
  induction ws as [|c ws IH]; cbn [app tokenize forallb]; [done|].
  intros [Hc Hws]%andb_prop. rewrite Hc. cbn [isEmpty]. now apply IH.
Qed.

Lemma tokenize_trailing_spaces s ws : forall acc,
  forallb is_space ws = true -> tokenize (s ++ ws) acc = tokenize s acc.
Proof.
  induction s as [|c s IH]; intros acc Hws; cbn [app].
  - now rewrite tokenize_spaces_only.
  - cbn [tokenize]. destruct (is_space c); [|now apply IH].
    rewrite (IH [] Hws). reflexivity.
Qed.

(** X5: white space before and after the filter text plays no part
    without the regular-expression option: the expression of the filter
    is the same, so the filter matches the same texts. *)
Theorem filter_ignores_surrounding_space (ws1 raw ws2 txt : QString) (ci : bool) :
  forallb is_space ws1 = true -> forallb is_space ws2 = true ->
  m_re (compile (ws1 ++ raw ++ ws2) false ci) = m_re (compile raw false ci) /\
  matches (compile (ws1 ++ raw ++ ws2) false ci) txt
  = matches (compile raw false ci) txt.
Proof.
  intros H1 H2.
  assert (Hre : m_re (compile (ws1 ++ raw ++ ws2) false ci)
                = m_re (compile raw false ci)).
  { unfold compile, filter, filter_pattern. cbn [m_re m_actionRe text].
    rewrite !split_reWhiteSpace. unfold words.
    now rewrite tokenize_leading_spaces, tokenize_trailing_spaces. }
  split; [done|]. unfold matches. now rewrite Hre.
Qed.





(** ** What the highlight selects *)

Section HighlightSelections.
Variable searchOption : PatternOption -> PatternOption.
Variable doc : QString.
Variable re : QRegularExpression.

Local Abbreviation expr := (search_expression searchOption re).

Lemma find_forward_reached cur c :
  find searchOption doc re cur false = Some c ->
  occurs_at expr (blocks doc) (cur_anchor c) (cur_position c) /\
  (forall x, cur = Some x -> selectionEnd x <= cur_anchor c) /\
  cur_anchor c <= cur_position c /\ cur_position c <= length doc.
Proof.
  intros H. split; [|now apply find_forward_cursor_bounds in H].
  unfold find in H.
  match type of H with
  | find_from _ _ _ ?from _ = _ =>
      pose proof (find_from_spec searchOption doc re from false) as Hs
  end.
  rewrite H in Hs. apply Hs.
Qed.

Lemma highlight_cursor_find x' selections cur :
  Forall (fun s => cur_position s <= selectionEnd x') selections ->
  find searchOption doc re (Some x') false = cur ->
  highlight_cursor expr doc cur (position cur) selections.
Proof.
  intros Hsel Hfind x ->. apply find_forward_reached in Hfind
    as (Hocc & Hfrom & Hle & Hdoc).
  specialize (Hfrom x' eq_refl).
  repeat split; try done.
  eapply Forall_impl; [exact Hsel|]. unfold follows. intros s Hs. simpl in Hs. lia.
Qed.

Lemma highlight_loop_selections : forall fuel cur a selections result,
  highlight_cursor expr doc cur a selections ->
  Forall (selection_of expr doc) selections ->
  StronglySorted follows selections ->
  highlight_loop searchOption fuel doc re cur a selections = Some result ->
  Forall (selection_of expr doc) result /\ StronglySorted follows result.
Proof.
  induction fuel as [|fuel IH]; intros cur a selections result Hcur Hall Hsorted;
    [done|].
  cbn [highlight_loop]. destruct cur as [x|]; [|now intros [= <-]].
  destruct (Hcur x eq_refl) as (-> & Hle & Hdoc & Hocc & Hbefore).
  set (selections' := if hasSelection x then selections ++ [x] else selections).
  set (cur' := if hasSelection x then Some x
               else movePosition doc NextCharacter (Some x)).
  assert (Hall' : Forall (selection_of expr doc) selections').
  { subst selections'. unfold hasSelection.
    destruct (cur_anchor x =? cur_position x) eqn:He; [done|].
    apply Nat.eqb_neq in He. apply Forall_app. split; [done|].
    apply Forall_singleton. unfold selection_of. repeat split; [lia|done|done]. }
  assert (Hsorted' : StronglySorted follows selections').
  { subst selections'. destruct (hasSelection x); [|done].
    apply StronglySorted_app. split.
    - intros s1 s2 Hs1 ->%list_elem_of_singleton.
      rewrite Forall_forall in Hbefore. now apply Hbefore.
    - split; [done|]. apply SSorted_cons; constructor. }
  assert (Hcur' : exists x', cur' = Some x' /\ cur_position x <= selectionEnd x' /\
            Forall (fun s => cur_position s <= selectionEnd x') selections').
  { subst cur' selections'. unfold hasSelection.
    destruct (cur_anchor x =? cur_position x) eqn:He; cbn [negb movePosition].
    - eexists. split; [reflexivity|]. unfold selectionEnd.
      cbn [cur_anchor cur_position]. rewrite Nat.max_id.
      apply Nat.eqb_eq in He.
      assert (Hp : cur_position x <=
                   (if cur_position x <? length doc
                    then S (cur_position x) else cur_position x))
        by (destruct (_ <? _); lia).
      split; [lia|].
      eapply Forall_impl; [exact Hbefore|]. unfold follows. intros s Hs.
      simpl in Hs. lia.
    - exists x. split; [done|]. unfold selectionEnd. split; [lia|].
      apply Forall_app. split.
      + eapply Forall_impl; [exact Hbefore|]. unfold follows. intros s Hs.
        simpl in Hs. lia.
      + apply Forall_singleton. lia. }
  destruct Hcur' as (x' & Hx' & Hxx' & Hends).
  fold selections'. change (if hasSelection x then Some x
                            else movePosition doc NextCharacter (Some x)) with cur'.
  rewrite Hx'.
  pose proof (highlight_cursor_find x' selections' _ Hends eq_refl) as Hcur2.
  destruct (find searchOption doc re (Some x') false) as [c|] eqn:Hfind;
    cbn [position] in *.
  - destruct (Z.of_nat (cur_position x) =? Z.of_nat (cur_position c))%Z eqn:Hab.
    + cbn [movePosition].
      set (x2 := {| cur_anchor := _; cur_position := _ |}).
      assert (Hends2 : Forall (fun s => cur_position s <= selectionEnd x2) selections').
      { destruct (Hcur2 c eq_refl) as (_ & Hc1 & _ & _ & Hc2).
        eapply Forall_impl; [exact Hc2|]. unfold follows, selectionEnd.
        intros s Hs. subst x2. cbn [cur_anchor cur_position] in *.
        rewrite Nat.max_id. destruct (_ <? _); lia. }
      pose proof (highlight_cursor_find x2 selections' _ Hends2 eq_refl) as Hcur3.
      destruct (_ =? position _)%Z; [now intros [= <-]|].
      now apply IH.
    + now apply IH.
  - destruct (Z.of_nat (cur_position x) =? -1)%Z eqn:Hab; [lia|].
    now apply IH.
Qed.

End HighlightSelections.

(** X7: the highlight ends, and what it selects are occurrences of the
    expression the document is searched with, none of them empty, each
    within one line of the document, in the order of the text and
    without overlap.  The document and the cursor stay as they are.
    So the words of a plain filter are selected with what lies between
    them, up to letter case and within a line; a repetition selects the
    longest run and no empty match; a group that matches the empty text
    first selects nothing; and with a library that compiles a character
    class each letter of the class is selected. *)
Theorem highlight_selects_occurrences (searchOption : PatternOption -> PatternOption)
    (f : ItemFilterRegExp) (edit : QTextEdit) :
  (exists selections,
    highlight searchOption f edit = Some (setExtraSelections selections edit) /\
    Forall (selection_of (search_expression searchOption (m_re f)) (document edit))
           selections /\
    StronglySorted follows selections) /\
  highlight caseInsensitiveSearch (compile (qs "a b") false false)
    (edit_at (qs "a x B" ++ LF :: qs "a" ++ LF :: qs "b") 0)
  = Some (setExtraSelections [{| cur_anchor := 0; cur_position := 5 |}]
            (edit_at (qs "a x B" ++ LF :: qs "a" ++ LF :: qs "b") 0)) /\
  highlight caseInsensitiveSearch (compile (qs "a*") true false)
    (edit_at (qs "baab") 0)
  = Some (setExtraSelections [{| cur_anchor := 1; cur_position := 3 |}]
            (edit_at (qs "baab") 0)) /\
  highlight caseInsensitiveSearch (compile (qs "(|a)+") true false)
    (edit_at (qs "a") 0)
  = Some (setExtraSelections [] (edit_at (qs "a") 0)) /\
  highlight (pcre := character_class_abc) caseInsensitiveSearch
    (compile (pcre := character_class_abc) (qs "[abc]") true false)
    (edit_at (qs "xbxa") 0)
  = Some (setExtraSelections [{| cur_anchor := 1; cur_position := 2 |};
                              {| cur_anchor := 3; cur_position := 4 |}]
            (edit_at (qs "xbxa") 0)).
Proof.
  split; [|repeat split; vm_compute; reflexivity].
  destruct (highlight_selections_terminates searchOption f (document edit))
    as [selections Hsel].
  specialize (Hsel _ (Nat.le_refl _)).
  exists selections. unfold highlight. rewrite Hsel. split; [done|].
  revert Hsel. unfold highlight_selections.
  destruct (_ && _); [|intros [= <-]; split; constructor].
  apply highlight_loop_selections; [|constructor|constructor].
  intros x Hx. rewrite Hx.
  change (find_from searchOption (document edit) (m_re f) 0 false)
    with (find searchOption (document edit) (m_re f) None false) in Hx.
  apply find_forward_reached in Hx as (Hocc & _ & Hle & Hdoc).
  repeat split; done.
Qed.

(** ** The search wraps around *)


(** ** The search timer over any run of events *)

Lemma run_cons w t ev rest :
  run w ((t, ev) :: rest)
  = (fst (run (fst (deliver t ev (fst (expire t w)))) rest),
     snd (expire t w) ++ snd (deliver t ev (fst (expire t w)))
       ++ snd (run (fst (deliver t ev (fst (expire t w)))) rest)).
Proof.
  cbn [run]. destruct (expire t w) as [w1 e1]. cbn [fst snd].
  destruct (deliver t ev w1) as [w2 e2]. cbn [fst snd].
  now destruct (run w2 rest).
Qed.

Lemma run_until_eq horizon w events :
  run_until horizon w events
  = (fst (expire horizon (fst (run w events))),
     snd (run w events) ++ snd (expire horizon (fst (run w events)))).
Proof.
  unfold run_until. destruct (run w events) as [w1 e1]. cbn [fst snd].
  now destruct (expire horizon w1).
Qed.

Lemma run_app w pre events :
  run w (pre ++ events)
  = (fst (run (fst (run w pre)) events),
     snd (run w pre) ++ snd (run (fst (run w pre)) events)).
Proof.
  revert w. induction pre as [|[t ev] pre IH]; intros w.
  - cbn [app run fst snd]. now destruct (run w events).
  - cbn [app]. rewrite !run_cons, IH. cbn [fst snd].
    now rewrite <- !app_assoc.
Qed.

Lemma expire_needs_focus t w :
  timer_needs_focus w -> timer_needs_focus (fst (expire t w)).
Proof.
  unfold timer_needs_focus, expire. destruct w as [focus [d|]];
    cbn [hasFocus m_timerSearch]; [destruct (d <=? t)|];
    cbn [fst hasFocus m_timerSearch]; intros H d' Hd'; try done;
    now apply (H d').
Qed.

Lemma deliver_needs_focus t ev w :
  timer_needs_focus w -> timer_needs_focus (fst (deliver t ev w)).
Proof.
  unfold timer_needs_focus.
  destruct ev, w as [[|] [d|]];
    cbn [deliver onTextChanged focusInEvent focusOutEvent menuTriggered fst
         hasFocus m_timerSearch];
    intros H d' Hd'; try done; now apply (H d').
Qed.

Lemma run_needs_focus events : forall w,
  timer_needs_focus w -> timer_needs_focus (fst (run w events)).
Proof.
  induction events as [|[t ev] rest IH]; intros w Hw; [done|].
  rewrite run_cons. cbn [fst].
  now apply IH, deliver_needs_focus, expire_needs_focus.
Qed.

(** X9: the timer never runs while the line edit is without the focus:
    what holds of the widget at the start holds after every run of
    changes of the text, changes of the focus and expirations of the
    timer. *)
Theorem timer_runs_only_with_focus (w : Widget) (events : list (nat * Event))
    (horizon : nat) :
  timer_needs_focus w ->
  timer_needs_focus (fst (run w events)) /\
  timer_needs_focus (fst (run_until horizon w events)).
Proof.
  intros Hw. split; [now apply run_needs_focus|].
  rewrite run_until_eq. cbn [fst].
  now apply expire_needs_focus, run_needs_focus.
Qed.

Lemma expire_pending t w :
  length (snd (expire t w)) + pending (fst (expire t w)) = pending w.
Proof.
  unfold expire, pending. destruct w as [focus [d|]];
    cbn [hasFocus m_timerSearch]; [destruct (d <=? t)|];
    cbn [fst snd m_timerSearch length]; lia.
Qed.

Lemma deliver_pending t ev w :
  length (snd (deliver t ev w)) + pending (fst (deliver t ev w))
  <= pending w + (if is_text_change (t, ev) then 1 else 0)
     + (if is_menu_action (t, ev) then 1 else 0).
Proof.
  unfold pending, is_text_change, is_menu_action.
  destruct ev, w as [[|] [d|]];
    cbn [deliver onTextChanged focusInEvent focusOutEvent menuTriggered fst snd
         hasFocus m_timerSearch length]; lia.
Qed.

Lemma run_pending events : forall w,
  length (snd (run w events)) + pending (fst (run w events))
  <= pending w + text_changes events + menu_actions events.
Proof.
  induction events as [|[t ev] rest IH]; intros w.
  - cbn [run fst snd length]. unfold text_changes, menu_actions. cbn. lia.
  - rewrite run_cons. cbn [fst snd]. rewrite !length_app.
    pose proof (expire_pending t w) as H1.
    pose proof (deliver_pending t ev (fst (expire t w))) as H2.
    pose proof (IH (fst (deliver t ev (fst (expire t w))))) as H3.
    unfold text_changes, menu_actions in *. cbn [List.filter].
    destruct (is_text_change (t, ev)), (is_menu_action (t, ev));
      cbn [length]; lia.
Qed.

(** X10: [filterChanged] is emitted at most once for each change of the
    text and each action of the menu, and once more when the timer was
    running at the start, whatever the order of the events and the
    times between them: the changes of the focus and the expirations of
    the timer add nothing of their own. *)
Theorem filter_changed_at_most_once_per_change (w : Widget)
    (events : list (nat * Event)) (horizon : nat) :
  length (snd (run_until horizon w events))
  <= pending w + text_changes events + menu_actions events.
Proof.
  rewrite run_until_eq. cbn [snd]. rewrite length_app.
  pose proof (run_pending events w) as H1.
  pose proof (expire_pending horizon (fst (run w events))) as H2. lia.
Qed.

Lemma run_until_app horizon w pre events :
  snd (run_until horizon w (pre ++ events))
  = snd (run w pre) ++ snd (run_until horizon (fst (run w pre)) events).
Proof.
  rewrite !run_until_eq, run_app. cbn [fst snd]. now rewrite <- app_assoc.
Qed.

Lemma run_until_cons horizon w t ev rest :
  snd (run_until horizon w ((t, ev) :: rest))
  = snd (expire t w) ++ snd (deliver t ev (fst (expire t w)))
      ++ snd (run_until horizon (fst (deliver t ev (fst (expire t w)))) rest).
Proof.
  rewrite !run_until_eq, run_cons. cbn [fst snd]. now rewrite <- !app_assoc.
Qed.

(** While the timer runs, what is due is emitted: by the timer, or by
    the loss of the focus. *)
Lemma pending_is_emitted t horizon events : forall w d,
  m_timerSearch w = Some d -> t <= d -> d <= horizon ->
  followed_by t horizon events ->
  exists e, e ∈ snd (run_until horizon w events) /\ t <= e /\ e <= horizon.
Proof.
  induction events as [|[t' ev] rest IH]; intros w d Hd Htd Hdh Hev.
  - exists d. split; [|lia]. rewrite run_until_eq. cbn [run fst snd app].
    unfold expire. rewrite Hd.
    apply Nat.leb_le in Hdh. rewrite Hdh. cbn [snd]. apply list_elem_of_singleton.
    reflexivity.
  - apply Forall_cons in Hev as [[Ht' Hh'] Hrest]. cbn [fst] in Ht', Hh'.
    rewrite run_until_cons. unfold expire at 1 2 3. rewrite Hd.
    destruct (d <=? t') eqn:Hdt; cbn [fst snd].
    { exists d. split; [|lia]. apply elem_of_app. left.
      now apply list_elem_of_singleton. }
    cbn [app].
    destruct ev; cbn [deliver]; unfold onTextChanged, focusInEvent, focusOutEvent;
      cbn [hasFocus m_timerSearch].
    + destruct (hasFocus w); cbn [fst snd app].
      * apply (IH _ (t' + interval)); [done|lia|lia|done].
      * exists t'. unfold interval in *. split; [|lia].
        apply elem_of_cons. now left.
    + cbn [fst snd app]. apply (IH _ d); done.
    + rewrite Hd. cbn [fst snd app]. exists t'. unfold interval in *.
      split; [|lia]. apply elem_of_cons. now left.
    + unfold menuTriggered. cbn [fst snd app]. exists t'. unfold interval in *.
      split; [|lia]. apply elem_of_cons. now left.
Qed.

(** X11: no change of the text is lost: when the events after a change
    at [t] come no earlier than [t] and the run lasts an interval or
    more beyond the last of them, [filterChanged] is emitted at [t] or
    later, whatever came before and whatever the focus does. *)
Theorem text_change_is_reported (w : Widget) (pre post : list (nat * Event))
    (t horizon : nat) :
  t + interval <= horizon ->
  followed_by t horizon post ->
  exists e,
    e ∈ snd (run_until horizon w (pre ++ (t, TextChanged) :: post)) /\
    t <= e /\ e <= horizon.
Proof.
  intros Hth Hpost. rewrite run_until_app, run_until_cons.
  set (w1 := fst (expire t (fst (run w pre)))).
  cbn [deliver]. unfold onTextChanged.
  destruct (hasFocus w1); cbn [fst snd app].
  - destruct (pending_is_emitted t horizon post
                {| hasFocus := true; m_timerSearch := Some (t + interval) |}
                (t + interval) eq_refl) as (e & He & Hte & Heh);
      [lia|done|done|].
    exists e. split; [|done]. apply elem_of_app. right. apply elem_of_app. now right.
  - exists t. unfold interval in *. split; [|lia].
    apply elem_of_app. right. apply elem_of_app. right.
    apply elem_of_cons. now left.
Qed.

(** ** What the migration of the history keeps *)

Lemma restoreOldFilterHistory_history st :
  history (restoreOldFilterHistory st)
  = if isEmpty (toStringList (AppConfig_option optionFilterHistory st))
    then history st
    else removeDuplicates
           (history st ++ toStringList (AppConfig_option optionFilterHistory st)).
Proof.
  unfold restoreOldFilterHistory.
  set (v := AppConfig_option optionFilterHistory st).
  destruct (QVariant_isValid v) eqn:Hv.
  - destruct (toStringList v) as [|x l]; cbn [isEmpty negb]; [done|].
    unfold AppConfig_removeOption, history at 1. cbn [m_settings setHistory].
    unfold value. now rewrite lookup_insert_eq.
  - now destruct v.
Qed.

(** X12: the migration loses no entry and invents none: a string is in
    the history afterwards exactly when it was in the history or in the
    list of the old key before. *)
Theorem restoreOldFilterHistory_same_entries (st : Stores) (s : QString) :
  In s (history (restoreOldFilterHistory st)) <->
  In s (history st) \/ In s (toStringList (AppConfig_option optionFilterHistory st)).
Proof.
  rewrite restoreOldFilterHistory_history.
  destruct (toStringList (AppConfig_option optionFilterHistory st)) as [|x l];
    cbn [isEmpty].
  - cbn [In]. tauto.
  - rewrite removeDuplicates_first_occurrences, first_occurrences_elem.
    apply in_app_iff.
Qed.

Lemma filter_other_id (x : QString) l :
  ~ In x l -> List.filter (fun s' => negb (bool_decide (s' = x))) l = l.
Proof.
  induction l as [|y l IH]; [done|]. cbn [In List.filter]. intros H.
  rewrite bool_decide_eq_false_2 by (intros ->; apply H; now left).
  cbn [negb]. rewrite IH; [done|]. intros Hin. apply H. now right.
Qed.

Lemma first_occurrences_prefix l1 l2 :
  List.NoDup l1 -> exists k, first_occurrences (l1 ++ l2) = l1 ++ k.
Proof.
  induction 1 as [|x l1 Hx Hnd [k IH]]; cbn [app first_occurrences].
  - eauto.
  - rewrite IH, List.filter_app, filter_other_id by done. eauto.
Qed.

(** X13: when the history holds no string twice, the migration keeps it
    as it is at the head of the new history: the strings of the old key
    come after it.  The new history holds no string twice. *)
Theorem restoreOldFilterHistory_keeps_history_first (st : Stores) :
  List.NoDup (history st) ->
  (exists added,
     history (restoreOldFilterHistory st) = history st ++ added) /\
  List.NoDup (history (restoreOldFilterHistory st)).
Proof.
  intros Hnd. rewrite restoreOldFilterHistory_history.
  destruct (isEmpty _).
  - split; [|done]. exists []. now rewrite app_nil_r.
  - rewrite removeDuplicates_first_occurrences.
    split; [now apply first_occurrences_prefix | apply first_occurrences_NoDup].
Qed.

(** X14: the migration touches one key of each store and no other: every
    other setting of the application and of the history file stays as
    it is. *)
Theorem restoreOldFilterHistory_other_keys (st : Stores) (key : QString) :
  key <> optionFilterHistory ->
  appConfig (restoreOldFilterHistory st) !! key = appConfig st !! key /\
  m_settings (restoreOldFilterHistory st) !! key = m_settings st !! key.
Proof.
  intros Hkey. unfold restoreOldFilterHistory.
  destruct (QVariant_isValid _); [|done].
  destruct (negb _); unfold AppConfig_removeOption, setHistory;
    cbn [appConfig m_settings].
  - now rewrite lookup_delete_ne, lookup_insert_ne.
  - now rewrite lookup_delete_ne.
Qed.

(** ** Highlight and search do not interfere *)

Lemma highlight_document searchOption f edit edit' :
  highlight searchOption f edit = Some edit' ->
  document edit' = document edit /\ textCursor edit' = textCursor edit.
Proof.
  unfold highlight. destruct (highlight_selections _ _ _ _); [|done].
  now intros [= <-].
Qed.

Lemma search_document searchOption f edit backwards :
  document (search searchOption f edit backwards) = document edit /\
  extraSelections (search searchOption f edit backwards) = extraSelections edit.
Proof.
  unfold search. destruct (matchesAll f); [done|].
  destruct (isNull (textCursor edit)); [done|].
  now destruct (negb _).
Qed.

(** X15: highlighting twice is highlighting once: the selections are
    those of the document, whatever was selected before. *)
Theorem highlight_idempotent (searchOption : PatternOption -> PatternOption)
    (f : ItemFilterRegExp) (edit edit' : QTextEdit) :
  highlight searchOption f edit = Some edit' ->
  highlight searchOption f edit' = Some edit'.
Proof.
  intros H. destruct (highlight_document _ _ _ _ H) as [Hdoc Hcur].
  revert H. unfold highlight. rewrite Hdoc.
  destruct (highlight_selections _ _ _ _) as [selections|]; [|done].
  intros [= <-]. reflexivity.
Qed.

(** X16: the highlight and the search do not interfere: the search
    moves the cursor and leaves the selections of the highlight, the
    highlight sets the selections and leaves the cursor, so that one
    after the other gives the same editor in either order. *)
Theorem highlight_search_commute (searchOption : PatternOption -> PatternOption)
    (f g : ItemFilterRegExp) (edit edit' : QTextEdit) (backwards : bool) :
  highlight searchOption f edit = Some edit' ->
  highlight searchOption f (search searchOption g edit backwards)
  = Some (search searchOption g edit' backwards).
Proof.
  unfold highlight.
  destruct (search_document searchOption g edit backwards) as [Hdoc _].
  rewrite Hdoc.
  destruct (highlight_selections _ _ _ _) as [selections|]; [|done].
  intros [= <-]. f_equal. unfold search.
  cbn [setExtraSelections textCursor document].
  destruct (matchesAll g); [done|].
  destruct (isNull (textCursor edit)); [done|].
  now destruct (negb _).
Qed.

(** ** The settings of the line edit and the history of its completer *)

Section LineEditSettingsSpec.
Context {Completer : Type} `{!FilterCompleter Completer}.
Variable defaults : ConfigDefaults.

Lemma option_bool_setHistory d name l st :
  AppConfig_option_bool d name (setHistory l st) = AppConfig_option_bool d name st.
Proof. reflexivity. Qed.

Lemma option_bool_restoreOldFilterHistory d name st :
  name <> optionFilterHistory ->
  AppConfig_option_bool d name (restoreOldFilterHistory st)
  = AppConfig_option_bool d name st.
Proof.
  intros Hname. unfold AppConfig_option_bool, AppConfig_option, value.
  unfold restoreOldFilterHistory.
  destruct (QVariant_isValid (AppConfig_option optionFilterHistory st)); [|done].
  destruct (negb _); unfold AppConfig_removeOption; cbn [appConfig setHistory];
    now rewrite lookup_delete_ne.
Qed.

(** X17: with the history switched off, loading the settings removes
    the completer and empties the stored history, leaves the settings of
    the application as they are, the key of the old history too, and
    hiding the line edit afterwards writes nothing. *)
Theorem loadSettings_without_history (s : Session Completer) :
  AppConfig_option_bool (default_save_filter_history defaults)
    save_filter_history (stores s) = false ->
  completer (loadSettings defaults s) = None /\
  history (stores (loadSettings defaults s)) = [] /\
  appConfig (stores (loadSettings defaults s)) = appConfig (stores s) /\
  hideEvent (loadSettings defaults s) = loadSettings defaults s.
Proof.
  intros Hsave. unfold loadSettings. rewrite Hsave.
  cbn [completer stores].
  split; [reflexivity|]. split; [apply history_setHistory|].
  split; reflexivity.
Qed.


(** X19: what the menu stores, loading the settings reads back: after
    [onMenuAction] the two options of the line edit are those that
    [loadSettings] sets, whatever was stored before and whatever the
    defaults are, and the filter is the same. *)
Theorem menu_options_persist (s : Session Completer) :
  lineEdit (loadSettings defaults (onMenuAction s)) = lineEdit s /\
  filter (lineEdit (loadSettings defaults (onMenuAction s))) = filter (lineEdit s).
Proof.
  assert (H : lineEdit (loadSettings defaults (onMenuAction s)) = lineEdit s).
  { assert (Hw : forall (s0 : Session Completer),
              lineEdit (loadSettings defaults s0)
              = {| text := text (lineEdit s0);
                   m_actionRe :=
                     AppConfig_option_bool (default_filter_regular_expression defaults)
                       filter_regular_expression (stores s0);
                   m_actionCaseInsensitive :=
                     AppConfig_option_bool (default_filter_case_insensitive defaults)
                       filter_case_insensitive (stores s0) |}).
    { intros s0. unfold loadSettings.
      destruct (AppConfig_option_bool _ save_filter_history _); [|done].
      now destruct (completer s0). }
    rewrite Hw. unfold onMenuAction. cbn [lineEdit stores].
    unfold AppConfig_option_bool, AppConfig_option, AppConfig_setOption, value.
    cbn [appConfig].
    rewrite lookup_insert_eq, lookup_insert_ne by discriminate.
    rewrite lookup_insert_eq. cbn [default from_option id QVariant_isValid toBool].
    now destruct (lineEdit s). }
  split; [exact H | now rewrite H].
Qed.

(** X20: loading the settings twice is loading them once. *)
Theorem loadSettings_idempotent (s : Session Completer) :
  loadSettings defaults (loadSettings defaults s) = loadSettings defaults s.
Proof.
  unfold loadSettings at 2 3.
  destruct (AppConfig_option_bool _ save_filter_history (stores s)) eqn:Hsave.
  - destruct (completer s) as [c|] eqn:Hc.
    + unfold loadSettings. cbn [lineEdit completer stores menuEmissions text].
      now rewrite Hsave.
    + unfold loadSettings. cbn [lineEdit completer stores menuEmissions text].
      rewrite !option_bool_restoreOldFilterHistory by discriminate.
      now rewrite Hsave.
  - unfold loadSettings. cbn [lineEdit completer stores menuEmissions text].
    rewrite !option_bool_setHistory, Hsave.
    unfold setHistory. cbn [appConfig m_settings].
    now rewrite insert_insert_eq.
Qed.

End LineEditSettingsSpec.

(** ** The main window *)

Lemma filtered_by_snoc cs c :
  filtered_by (cs ++ [c]) = filter_call (filtered_by cs) c.
Proof. unfold filtered_by. now rewrite fold_left_app. Qed.

(** The handlers are evaluated on a window given by its fields. *)
Ltac window_cases :=
  cbv [handle keyPressEvent enterSearchMode trayActivated toggleVisible
       textEdited resetStatus exit enterBrowseMode on_searchBar_textEdited
       timerEvent setText close call fire action handleMessage
       m_browsemode searchBar_text searchBar_isHidden findLabel_isHidden
       focusWidget isVisible isMinimized timer_search calls ev_key ev_control].

(** X21: with browse mode as the default of [enterBrowseMode], the
    escape key first leaves the search: the text of the search bar is
    cleared, the bar and its label are hidden and the window stays as
    it is; pressed with the bar hidden it hides the window.  So two
    presses of the key hide the window, whatever its state. *)
Theorem escape_twice_hides_window (w : MainWindow) (e1 e2 : QKeyEvent) :
  ev_key e1 = Key_Escape -> ev_key e2 = Key_Escape ->
  let w1 := keyPressEvent true e1 w in
  (searchBar_isHidden w = false ->
   searchBar_text w1 = [] /\ searchBar_isHidden w1 = true /\
   findLabel_isHidden w1 = true /\ m_browsemode w1 = true /\
   isVisible w1 = isVisible w) /\
  (searchBar_isHidden w = true -> isVisible w1 = false) /\
  isVisible (keyPressEvent true e2 w1) = false.
Proof.
  intros H1 H2. cbv zeta. destruct e1 as [k1 c1], e2 as [k2 c2].
  cbn [ev_key] in H1, H2. subst k1 k2. destruct w as [m t h l f v mi ts cs].
  destruct c1, c2, h; window_cases; cbn [isEmpty]; repeat split; intros; congruence.
Qed.

Ltac window_auto :=
  repeat (window_cases;
          match goal with
          | |- context [if ?b then _ else _] => destruct b eqn:?
          | |- context [match ?r with Trigger => _ | _ => _ end] => destruct r
          end);
  window_cases.

(** The cases of an input: the keys, the edit of a request to search
    and the actions of the menu of the tray icon are told apart. *)
Ltac input_cases input :=
  destruct input as [[[] ?]| |?|[?|]|? ? ? ? ? ?| |?|[]|?].

Lemma fire_bar_and_label now w : bar_and_label w -> bar_and_label (fire now w).
Proof.
  unfold bar_and_label. destruct w as [m t h l f v mi [d|] cs]; window_auto; done.
Qed.

Lemma handle_bar_and_label d now input w :
  bar_and_label w -> bar_and_label (handle d now input w).
Proof.
  unfold bar_and_label. destruct w as [m t h l f v mi ts cs].
  cbn [m_browsemode searchBar_isHidden findLabel_isHidden].
  intros [Hsync Hmode].
  input_cases input; window_auto; intuition congruence.
Qed.

(** X22: the search bar and the label beside it are hidden together and
    shown together, and in search mode they are shown: what holds of
    the window at the start holds after every run of keys, edits,
    signals of the browser, activations of the tray icon and
    expirations of the timer, whatever the default of
    [enterBrowseMode]. *)
Theorem search_bar_and_label_together (browsemodeDefault : bool) (w : MainWindow)
    (inputs : list (nat * Input)) (horizon : nat) :
  bar_and_label w ->
  bar_and_label (process_until browsemodeDefault horizon w inputs).
Proof.
  intros Hw. unfold process_until. apply fire_bar_and_label.
  revert w Hw. induction inputs as [|[t input] rest IH]; intros w Hw; [done|].
  cbn [process]. now apply IH, handle_bar_and_label, fire_bar_and_label.
Qed.

Ltac filter_calls :=
  cbn [timer_search calls searchBar_text] in *;
  rewrite ?filtered_by_snoc; cbn [filter_call];
  try done; try (intros; congruence).

Lemma fire_filter_in_sync now w : filter_in_sync w -> filter_in_sync (fire now w).
Proof.
  unfold filter_in_sync. destruct w as [m t h l f v mi [d|] cs];
    window_auto; filter_calls.
Qed.

Lemma handle_filter_in_sync d now input w :
  filter_in_sync w -> filter_in_sync (handle d now input w).
Proof.
  unfold filter_in_sync. destruct w as [m t h l f v mi ts cs].
  intros Hsync.
  input_cases input; window_auto; filter_calls;
    try (intros H; specialize (Hsync H); filter_calls).
Qed.

Lemma handle_starts_timer d now input w :
  starts_timer input = true ->
  timer_search (handle d now input w) = Some (now + 100).
Proof.
  destruct w as [m t h l f v mi ts cs].
  input_cases input; try discriminate; intros _; window_auto; done.
Qed.

Lemma process_filter_in_sync d inputs : forall w,
  filter_in_sync w -> filter_in_sync (process d w inputs).
Proof.
  induction inputs as [|[t input] rest IH]; intros w Hw; [done|].
  cbn [process]. now apply IH, handle_filter_in_sync, fire_filter_in_sync.
Qed.

Lemma process_edit_in_sync d inputs : forall w,
  Exists (fun e => starts_timer (snd e) = true) inputs ->
  filter_in_sync (process d w inputs).
Proof.
  induction inputs as [|[t input] rest IH]; intros w Hex.
  - now apply Exists_nil in Hex.
  - cbn [process]. apply Exists_cons in Hex as [Hhd|Htl]; [|now apply IH].
    apply process_filter_in_sync. intros Hnone. cbn [snd] in Hhd.
    now rewrite (handle_starts_timer d t input (fire t w) Hhd) in Hnone.
Qed.

Lemma process_until_filter_in_sync d w inputs horizon :
  filter_in_sync w -> filter_in_sync (process_until d horizon w inputs).
Proof.
  intros Hw. unfold process_until.
  now apply fire_filter_in_sync, process_filter_in_sync.
Qed.

(** X23: while the timer of the search bar does not run, the clipboard
    browser filters by the text the search bar shows: what holds at the
    start holds after every run of inputs and expirations of the
    timer.  Clearing the search bar clears the filter at once; an edit
    starts the timer. *)
Theorem browser_filter_follows_search_bar (browsemodeDefault : bool)
    (w : MainWindow) (inputs : list (nat * Input)) (horizon : nat) :
  filter_in_sync w ->
  filter_in_sync (process browsemodeDefault w inputs) /\
  filter_in_sync (process_until browsemodeDefault horizon w inputs).
Proof.
  intros Hw. split; [now apply process_filter_in_sync|].
  now apply process_until_filter_in_sync.
Qed.

Lemma fire_due_by now horizon w : due_by horizon w -> due_by horizon (fire now w).
Proof.
  unfold due_by. destruct w as [m t h l f v mi [d|] cs];
    window_auto; filter_calls.
Qed.

Lemma handle_due_by d now horizon input w :
  now + 100 <= horizon -> due_by horizon w ->
  due_by horizon (handle d now input w).
Proof.
  unfold due_by. destruct w as [m t h l f v mi ts cs].
  cbn [timer_search]. intros Hnow Hdue.
  input_cases input; window_auto; try done; intros d' [= <-]; lia.
Qed.

Lemma process_due_by d horizon inputs : forall w,
  Forall (fun e => fst e + 100 <= horizon) inputs ->
  due_by horizon w -> due_by horizon (process d w inputs).
Proof.
  induction inputs as [|[t input] rest IH]; intros w Hin Hw; [done|].
  apply Forall_cons in Hin as [Ht Hrest]. cbn [process].
  apply IH; [done|]. now apply handle_due_by, fire_due_by.
Qed.

(** X24: the filter settles on the text of the search bar: once the
    interval of the timer has passed after the last input, the timer
    has stopped, and the last the clipboard browser was asked is to
    filter by the text the search bar shows then, however the edits,
    the keys, the signals and the messages came, provided the text was
    edited among the inputs, or the browser filtered by the text of the
    search bar at the start or the timer was running then. *)
Theorem browser_filter_settles (browsemodeDefault : bool) (w : MainWindow)
    (inputs : list (nat * Input)) (horizon : nat) :
  due_by horizon w ->
  Forall (fun e => fst e + 100 <= horizon) inputs ->
  let w' := process_until browsemodeDefault horizon w inputs in
  timer_search w' = None /\
  (filter_in_sync w \/ Exists (fun e => starts_timer (snd e) = true) inputs ->
   filtered_by (calls w') = Some (searchBar_text w')).
Proof.
  intros Hdue Hin. cbv zeta.
  assert (Hnone : timer_search (process_until browsemodeDefault horizon w inputs)
                  = None).
  { unfold process_until.
    pose proof (process_due_by browsemodeDefault horizon inputs w Hin Hdue) as H.
    revert H. unfold due_by.
    destruct (process browsemodeDefault w inputs) as [m t h l f v mi [d|] cs];
      [|done].
    cbn [timer_search]. intros H. specialize (H d eq_refl).
    apply Nat.leb_le in H. window_cases. now rewrite H. }
  split; [exact Hnone|]. intros Hstart.
  assert (Hsync : filter_in_sync (process browsemodeDefault w inputs)).
  { destruct Hstart as [Hw|Hex]; [now apply process_filter_in_sync|].
    now apply process_edit_in_sync. }
  unfold process_until in *. now apply fire_filter_in_sync.
Qed.

Lemma handleMessage_exit args w :
  ApplicationExit ∈ calls (handleMessage args w) <->
  ApplicationExit ∈ calls w \/ hd [] args = qs "exit".
Proof.
  destruct w as [m t h l f v mi ts cs]. unfold handleMessage.
  repeat case_bool_decide; window_auto;
    rewrite ?elem_of_app, ?list_elem_of_singleton;
    try (intuition congruence).
  all: match goal with H : _ = qs "toggle" |- _ => rewrite H end.
  all: intuition (try congruence).
  all: match goal with H : qs _ = qs _ |- _ => vm_compute in H; discriminate H end.
Qed.

(** X25: the application is ended by control and Q, by the middle
    button on the tray icon, by the action to exit of its menu and by
    the command [exit] of a client, and by nothing else: the escape
    key, the return key, a close event, a click on the tray icon and
    the other actions and commands leave the application running. *)
Theorem application_exits_only_on_request (browsemodeDefault : bool)
    (now : nat) (input : Input) (w : MainWindow) :
  ApplicationExit ∈ calls (handle browsemodeDefault now input w) <->
  ApplicationExit ∈ calls w \/ quits input = true.
Proof.
  destruct input as [event| |s|edit|row cmd sep i o wt| |r|a|args];
    try (destruct w as [m t h l f v mi ts cs];
         first [destruct event as [[] ?] | destruct a | destruct edit | idtac];
         window_auto; cbn [quits ev_key ev_control andb];
         rewrite ?elem_of_app, ?list_elem_of_singleton;
         intuition congruence).
  cbn [handle quits]. rewrite handleMessage_exit, bool_decide_eq_true. done.
Qed.

(** X26: a request to search leaves the window in search mode exactly
    when the search bar holds a text after it handled the event: the
    bar and its label are shown and the bar has the focus; with no text
    the window is back in browse mode, the bar and the label are hidden
    and the browser has the focus.  The timer is started exactly when
    the event edits the text, also when the edit leaves the text the
    bar had. *)
Theorem enterSearchMode_mode (now : nat) (edit : option QString) (w : MainWindow) :
  let w' := enterSearchMode now edit w in
  let s := default (searchBar_text w) edit in
  searchBar_text w' = s /\
  m_browsemode w' = isEmpty s /\
  searchBar_isHidden w' = isEmpty s /\
  findLabel_isHidden w' = isEmpty s /\
  focusWidget w' = (if isEmpty s then FocusClipboardBrowser else FocusSearchBar) /\
  timer_search w'
  = match edit with Some _ => Some (now + 100) | None => timer_search w end.
Proof.
  cbv zeta. destruct w as [m t h l f v mi ts cs].
  destruct edit as [s|]; cbn [default searchBar_text timer_search];
    [destruct s | destruct t]; window_cases; cbn [isEmpty]; done.
Qed.

(** X27: showing and hiding from the tray icon undo one another: after
    two calls of [toggleVisible] the window is visible exactly when it
    was, and a window that is shown is not minimized. *)
Theorem toggleVisible_twice (w : MainWindow) :
  isVisible (toggleVisible w) = negb (isVisible w) /\
  isVisible (toggleVisible (toggleVisible w)) = isVisible w /\
  (isVisible w = false -> isMinimized (toggleVisible w) = false).
Proof.
  destruct w as [m t h l f [|] mi ts cs]; window_cases; done.
Qed.

Lemma int_id z : (- 2 ^ 31 <= z < 2 ^ 31)%Z -> int z = z.
Proof.
  intros H. unfold int. rewrite Z.mod_small by lia. lia.
Qed.

Lemma center_axis screen width :
  int_length screen -> int_length width ->
  centred screen width (int (Z.quot (int (screen - width)) 2)).
Proof.
  unfold int_length, centred. intros Hs Hw.
  rewrite (int_id (screen - width)) by lia.
  pose proof (Z.quot_rem' (screen - width) 2) as Hq.
  pose proof (Z.rem_bound_abs (screen - width) 2 ltac:(lia)) as Hr.
  rewrite int_id by lia. lia.
Qed.

(** X28: [center] puts the window in the middle of the desktop: the
    margins on the left and on the right differ by one at most, and so
    do those above and below, also for a window larger than the
    desktop.  The sizes are lengths that an [int] holds. *)
Theorem center_is_centred (screenWidth screenHeight width height : Z) :
  int_length screenWidth -> int_length screenHeight ->
  int_length width -> int_length height ->
  centred screenWidth width (fst (center screenWidth screenHeight width height)) /\
  centred screenHeight height (snd (center screenWidth screenHeight width height)).
Proof.
  intros Hsw Hsh Hw Hh. unfold center. cbn [fst snd].
  split; now apply center_axis.
Qed.

End Properties.

(** * The theorems at work

    The theorems hold for every library.  They are applied here with
    the library that compiles the one character class. *)

#[local] Existing Instance character_class_abc.





Lemma matches_index_ignores_case_option_witness :
  exists key, key ∈ dom (index_data (fields_of [qs "a/b"])) /\
    Matches false key
      (foldr Cat Eps (map item_regex (joined_items [qs "a/b"])))
      0 (length key).
Proof.
  refine (proj1 (proj2 (matches_index_ignores_case_option
            anchoredRegExp (qs "a/b") false (fields_of [qs "a/b"]))) _ _ _).
  - vm_compute. reflexivity.
  - vm_compute. reflexivity.
Defined.


Lemma filter_changed_is_debounced_witness :
  run_until 500 focused_idle (map (fun t' => (t', TextChanged)) (0 :: [50; 100]))
  = ({| hasFocus := true; m_timerSearch := None |}, [300]).
Proof.
  refine (proj1 filter_changed_is_debounced focused_idle 0 [50; 100] 500
            eq_refl eq_refl _ _).
  - simpl. unfold interval. lia.
  - simpl. unfold interval. lia.
Defined.

Lemma restoreOldFilterHistory_migrates_witness :
  history (restoreOldFilterHistory legacy_example)
  = removeDuplicates (history legacy_example ++ [qs "x"; qs "y"]).
Proof.
  refine (proj2 (proj1 (proj2 (proj1 (proj2
            (restoreOldFilterHistory_migrates legacy_example))
            (QVStringList [qs "x"; qs "y"]) _ eq_refl)) _)).
  - vm_compute. reflexivity.
  - discriminate.
Defined.

Lemma matchesAll_matches_every_text_witness :
  matches (compile (qs "  ") false false) (qs "any text") = true /\
  matches_index (compile (qs "  ") false false) (fields_of [qs "text/plain"]) = false /\
  highlight caseInsensitiveSearch (compile (qs "  ") false false)
    (edit_at (qs "any text") 0)
  = Some (setExtraSelections [] (edit_at (qs "any text") 0)).
Proof.
  apply (matchesAll_matches_every_text caseInsensitiveSearch
           (compile (qs "  ") false false)
           (qs "any text") (fields_of [qs "text/plain"])
           (edit_at (qs "any text") 0)).
  vm_compute. reflexivity.
Defined.

Lemma matchesNone_finds_nothing_witness :
  matches (compile (qs "a(b") true false) (qs "a(b") = false /\
  highlight caseInsensitiveSearch (compile (qs "a(b") true false)
    (edit_at (qs "a(b") 0)
  = Some (setExtraSelections [] (edit_at (qs "a(b") 0)) /\
  search caseInsensitiveSearch (compile (qs "a(b") true false)
    (edit_at (qs "a(b") 0) false
  = edit_at (qs "a(b") 0.
Proof.
  apply (matchesNone_finds_nothing caseInsensitiveSearch
           (compile (qs "a(b") true false) (qs "a(b") (edit_at (qs "a(b") 0) false).
  vm_compute. reflexivity.
Defined.


Lemma filter_ignores_surrounding_space_witness :
  m_re (compile (qs "  " ++ qs "foo bar" ++ qs " ") false true)
  = m_re (compile (qs "foo bar") false true) /\
  matches (compile (qs "  " ++ qs "foo bar" ++ qs " ") false true) (qs "a Foo b Bar")
  = matches (compile (qs "foo bar") false true) (qs "a Foo b Bar").
Proof.
  apply (filter_ignores_surrounding_space (qs "  ") (qs "foo bar") (qs " ")
           (qs "a Foo b Bar") true); reflexivity.
Defined.



Lemma timer_runs_only_with_focus_witness :
  timer_needs_focus
    (fst (run focused_idle [(0, TextChanged); (10, FocusOut); (20, TextChanged)])) /\
  timer_needs_focus
    (fst (run_until 500 focused_idle
            [(0, TextChanged); (10, FocusOut); (20, TextChanged)])).
Proof.
  apply (timer_runs_only_with_focus focused_idle
           [(0, TextChanged); (10, FocusOut); (20, TextChanged)] 500).
  intros d Hd. discriminate Hd.
Defined.

Lemma text_change_is_reported_witness :
  exists e,
    e ∈ snd (run_until 1000 focused_idle
               ([(0, FocusOut)] ++ (10, TextChanged) ::
                  [(20, FocusIn); (30, TextChanged); (40, FocusOut)])) /\
    10 <= e /\ e <= 1000.
Proof.
  apply (text_change_is_reported focused_idle [(0, FocusOut)]
           [(20, FocusIn); (30, TextChanged); (40, FocusOut)] 10 1000).
  - unfold interval. lia.
  - unfold followed_by, interval. repeat constructor; cbn; lia.
Defined.

Lemma restoreOldFilterHistory_keeps_history_first_witness :
  (exists added,
     history (restoreOldFilterHistory legacy_example)
     = history legacy_example ++ added) /\
  List.NoDup (history (restoreOldFilterHistory legacy_example)).
Proof.
  apply (restoreOldFilterHistory_keeps_history_first legacy_example).
  vm_compute. repeat constructor; cbn; intros H;
    repeat (destruct H as [H|H]; [discriminate H|]); exact H.
Defined.

Lemma restoreOldFilterHistory_other_keys_witness :
  appConfig (restoreOldFilterHistory legacy_example) !! qs "tabs"
  = appConfig legacy_example !! qs "tabs" /\
  m_settings (restoreOldFilterHistory legacy_example) !! qs "tabs"
  = m_settings legacy_example !! qs "tabs".
Proof.
  apply (restoreOldFilterHistory_other_keys legacy_example (qs "tabs")).
  discriminate.
Defined.

Lemma highlight_idempotent_witness :
  highlight caseInsensitiveSearch (compile (qs "b") false false)
    (setExtraSelections [{| cur_anchor := 1; cur_position := 2 |};
                         {| cur_anchor := 3; cur_position := 4 |}]
       (edit_at (qs "abcb") 0))
  = Some (setExtraSelections [{| cur_anchor := 1; cur_position := 2 |};
                              {| cur_anchor := 3; cur_position := 4 |}]
            (edit_at (qs "abcb") 0)).
Proof.
  apply (highlight_idempotent caseInsensitiveSearch (compile (qs "b") false false)
           (edit_at (qs "abcb") 0)).
  vm_compute. reflexivity.
Defined.

Lemma highlight_search_commute_witness :
  highlight caseInsensitiveSearch (compile (qs "b") false false)
    (search caseInsensitiveSearch (compile (qs "c") false false)
       (edit_at (qs "abcb") 0) false)
  = Some (search caseInsensitiveSearch (compile (qs "c") false false)
            (setExtraSelections [{| cur_anchor := 1; cur_position := 2 |};
                                 {| cur_anchor := 3; cur_position := 4 |}]
               (edit_at (qs "abcb") 0)) false).
Proof.
  apply (highlight_search_commute caseInsensitiveSearch
           (compile (qs "b") false false) (compile (qs "c") false false)
           (edit_at (qs "abcb") 0)).
  vm_compute. reflexivity.
Defined.

Lemma loadSettings_without_history_witness :
  completer (loadSettings example_defaults (example_session false)) = None /\
  history (stores (loadSettings example_defaults (example_session false))) = [] /\
  appConfig (stores (loadSettings example_defaults (example_session false)))
  = appConfig (stores (example_session false)) /\
  hideEvent (loadSettings example_defaults (example_session false))
  = loadSettings example_defaults (example_session false).
Proof.
  apply (loadSettings_without_history example_defaults (example_session false)).
  vm_compute. reflexivity.
Defined.


Lemma escape_twice_hides_window_witness :
  let w1 := keyPressEvent true {| ev_key := Key_Escape; ev_control := false |}
              searching_window in
  (searchBar_isHidden searching_window = false ->
   searchBar_text w1 = [] /\ searchBar_isHidden w1 = true /\
   findLabel_isHidden w1 = true /\ m_browsemode w1 = true /\
   isVisible w1 = isVisible searching_window) /\
  (searchBar_isHidden searching_window = true -> isVisible w1 = false) /\
  isVisible (keyPressEvent true {| ev_key := Key_Escape; ev_control := true |} w1)
  = false.
Proof.
  apply (escape_twice_hides_window searching_window
           {| ev_key := Key_Escape; ev_control := false |}
           {| ev_key := Key_Escape; ev_control := true |}); reflexivity.
Defined.

Lemma search_bar_and_label_together_witness :
  bar_and_label
    (process_until true 1000 searching_window
       [(0, SearchBarEdited (qs "fo"));
        (10, KeyPress {| ev_key := Key_Escape; ev_control := false |});
        (20, RequestSearch (Some (qs "x")))]).
Proof.
  apply (search_bar_and_label_together true searching_window
           [(0, SearchBarEdited (qs "fo"));
            (10, KeyPress {| ev_key := Key_Escape; ev_control := false |});
            (20, RequestSearch (Some (qs "x")))] 1000).
  split; reflexivity.
Defined.

Lemma browser_filter_follows_search_bar_witness :
  filter_in_sync
    (process true searching_window
       [(0, SearchBarEdited (qs "fo"));
        (150, KeyPress {| ev_key := Key_Return; ev_control := false |})]) /\
  filter_in_sync
    (process_until true 1000 searching_window
       [(0, SearchBarEdited (qs "fo"));
        (150, KeyPress {| ev_key := Key_Return; ev_control := false |})]).
Proof.
  apply (browser_filter_follows_search_bar true searching_window
           [(0, SearchBarEdited (qs "fo"));
            (150, KeyPress {| ev_key := Key_Return; ev_control := false |})] 1000).
  intros _. reflexivity.
Defined.

Lemma browser_filter_settles_witness :
  let w' := process_until true 1000 fresh_window
              [(0, Message [qs "toggle"]);
               (10, RequestSearch (Some (qs "f")));
               (50, SearchBarEdited (qs "fo"));
               (60, KeyPress {| ev_key := Key_F3; ev_control := false |})] in
  timer_search w' = None /\
  filtered_by (calls w') = Some (searchBar_text w').
Proof.
  assert (Hdue : due_by 1000 fresh_window) by (intros d Hd; discriminate Hd).
  assert (Hin : Forall (fun e : nat * Input => fst e + 100 <= 1000)
            [(0, Message [qs "toggle"]);
             (10, RequestSearch (Some (qs "f")));
             (50, SearchBarEdited (qs "fo"));
             (60, KeyPress {| ev_key := Key_F3; ev_control := false |})])
    by (repeat constructor; cbn; lia).
  destruct (browser_filter_settles true fresh_window _ 1000 Hdue Hin) as [H1 H2].
  split; [exact H1|]. apply H2. right.
  apply Exists_cons_tl, Exists_cons_hd. reflexivity.
Defined.

Lemma center_is_centred_witness :
  centred 1280 400 (fst (center 1280 1024 400 1401)) /\
  centred 1024 1401 (snd (center 1280 1024 400 1401)).
Proof.
  apply (center_is_centred 1280 1024 400 1401); unfold int_length; lia.
Defined.




(** The claim C8 as it is written fails: an old key whose value is an
    empty list read back from the settings file is not deleted. *)
Lemma restoreOldFilterHistory_empty_counterexample :
  ~ (forall (st : Stores) (v : QVariant),
       appConfig st !! optionFilterHistory = Some v -> toStringList v = [] ->
       appConfig (restoreOldFilterHistory st) !! optionFilterHistory = None).
Proof.
  intros H. specialize (H empty_legacy_example QVInvalid eq_refl eq_refl).
  discriminate H.
Qed.

